(** * Address-book normalisation: phone numbers, names, duplicate merging

    A shallow embedding of [main.py] and the properties of its four core
    functions [process_phone], [process_phone_with_extension], [parse_fio]
    and [merge_contacts], together with the record loop of
    [process_address_book].

    Python strings are sequences of Unicode code points, so a string is a
    list of code points here.  The character classes of the [re] and [str]
    library calls the program makes ([\D], [\s], [str.strip], [str.lower],
    [re.IGNORECASE]) are written out as tables (CPython 3.11, Unicode 14). *)

From Equations Require Import Equations.
From Stdlib Require Import String Ascii.
From Stdlib Require Import List NArith Bool Arith Lia Permutation.
Import ListNotations.

(** ** Strings *)

Definition char := N.
Definition str := list char.

Definition char_eqb (a b : char) : bool := N.eqb a b.

Fixpoint str_eqb (a b : str) : bool :=
  match a, b with
  | [], [] => true
  | x :: a', y :: b' => char_eqb x y && str_eqb a' b'
  | _, _ => false
  end.

(** Python truthiness of a string: [if s] holds for a non-empty [s]. *)
Definition truthy (s : str) : bool :=
  match s with [] => false | _ :: _ => true end.

(** Source literals are UTF-8 text; [py_str] decodes one into code points. *)
Fixpoint utf8_go (s : string) (acc : N) (need : nat) : str :=
  match s with
  | EmptyString => []
  | String a rest =>
      let b := N_of_ascii a in
      match need with
      | O =>
          if (b <? 128)%N then b :: utf8_go rest 0%N 0
          else if (b <? 224)%N then utf8_go rest (b - 192)%N 1
          else if (b <? 240)%N then utf8_go rest (b - 224)%N 2
          else utf8_go rest (b - 240)%N 3
      | S O => (acc * 64 + (b - 128))%N :: utf8_go rest 0%N 0
      | S n => utf8_go rest (acc * 64 + (b - 128))%N n
      end
  end.

Definition py_str (s : string) : str := utf8_go s 0%N 0.

(** ** Character classes of the library calls *)

(** [\d] on a [str] pattern: the Unicode decimal digits (category Nd),
    given as runs [(first, length)]. *)
Definition decimal_runs : list (N * N) :=
  [ (48, 10); (1632, 10); (1776, 10); (1984, 10); (2406, 10); (2534, 10);
    (2662, 10); (2790, 10); (2918, 10); (3046, 10); (3174, 10); (3302, 10);
    (3430, 10); (3558, 10); (3664, 10); (3792, 10); (3872, 10); (4160, 10);
    (4240, 10); (6112, 10); (6160, 10); (6470, 10); (6608, 10); (6784, 10);
    (6800, 10); (6992, 10); (7088, 10); (7232, 10); (7248, 10); (42528, 10);
    (43216, 10); (43264, 10); (43472, 10); (43504, 10); (43600, 10);
    (44016, 10); (65296, 10); (66720, 10); (68912, 10); (69734, 10);
    (69872, 10); (69942, 10); (70096, 10); (70384, 10); (70736, 10);
    (70864, 10); (71248, 10); (71360, 10); (71472, 10); (71904, 10);
    (72016, 10); (72784, 10); (73040, 10); (73120, 10); (92768, 10);
    (92864, 10); (93008, 10); (120782, 50); (123200, 10); (123632, 10);
    (125264, 10); (130032, 10) ]%N.

Definition in_run (c : char) (r : N * N) : bool :=
  (fst r <=? c)%N && (c <? fst r + snd r)%N.

Definition is_digit (c : char) : bool := existsb (in_run c) decimal_runs.
Arguments is_digit c : simpl never.

(** [\s] on a [str] pattern, which is also what [str.strip()] removes. *)
Definition space_runs : list (N * N) :=
  [ (9, 5); (28, 5); (133, 1); (160, 1); (5760, 1); (8192, 11); (8232, 2);
    (8239, 1); (8287, 1); (12288, 1) ]%N.

Definition is_space (c : char) : bool := existsb (in_run c) space_runs.
Arguments is_space c : simpl never.

(** The code points the program names. *)
Definition c_space : char := 32%N.
Definition c_dot : char := 46%N.
Definition c_7 : char := 55%N.
Definition c_8 : char := 56%N.
Definition c_de : char := 1076%N.   (* д *)
Definition c_o : char := 1086%N.    (* о *)
Definition c_be : char := 1073%N.   (* б *)

(** [str.lower()] on Basic Latin and on the Cyrillic capitals; every other
    code point is kept.  No code point outside these ranges has д, о or б
    in its lowercase form, so the membership test ['доб' in phone.lower()]
    below gives Python's answer on every string. *)
Definition lower_char (c : char) : char :=
  if (65 <=? c)%N && (c <=? 90)%N then (c + 32)%N
  else if (1040 <=? c)%N && (c <=? 1071)%N then (c + 32)%N
  else if (1024 <=? c)%N && (c <=? 1039)%N then (c + 80)%N
  else c.

Definition lower (s : str) : str := map lower_char s.

(** [re.IGNORECASE] on a literal code point: the code points that match
    д, о and б.  Besides the capital, [re] accepts the two historic letter
    forms U+1C81 and U+1C82, which [str.lower()] leaves alone. *)
Definition ci_de (c : char) : bool :=
  char_eqb c 1076%N || char_eqb c 1044%N || char_eqb c 7297%N.
Definition ci_o (c : char) : bool :=
  char_eqb c 1086%N || char_eqb c 1054%N || char_eqb c 7298%N.
Definition ci_be (c : char) : bool :=
  char_eqb c 1073%N || char_eqb c 1041%N.

(** ** String operations used by the program *)

(** [s.startswith(c)] for a one-character [c]. *)
Definition startswith (c : char) (s : str) : bool :=
  match s with x :: _ => char_eqb x c | [] => false end.

Fixpoint is_prefix (p s : str) : bool :=
  match p, s with
  | [], _ => true
  | x :: p', y :: s' => char_eqb x y && is_prefix p' s'
  | _ :: _, [] => false
  end.

(** [sub in s]. *)
Fixpoint contains (sub s : str) : bool :=
  is_prefix sub s ||
  match s with
  | [] => false
  | _ :: s' => contains sub s'
  end.

(** [re.sub(r'\D', '', s)]. *)
Definition strip_non_digits (s : str) : str := filter is_digit s.

Fixpoint drop_while (p : char -> bool) (s : str) : str :=
  match s with
  | [] => []
  | c :: s' => if p c then drop_while p s' else s
  end.

(** [s.strip()]. *)
Definition strip (s : str) : str :=
  rev (drop_while is_space (rev (drop_while is_space s))).

(** [s.split(' ')]: one piece per separator, empty pieces kept. *)
Fixpoint split_on (sep : char) (s : str) : list str :=
  match s with
  | [] => [[]]
  | c :: s' =>
      if char_eqb c sep then [] :: split_on sep s'
      else match split_on sep s' with
           | p :: ps => (c :: p) :: ps
           | [] => [[c]]
           end
  end.

(** [sep.join(parts)]. *)
Fixpoint join (sep : str) (parts : list str) : str :=
  match parts with
  | [] => []
  | [p] => p
  | p :: ps => p ++ sep ++ join sep ps
  end.

(** ** Exceptions *)

Inductive exn : Type := IndexError.

Inductive result (A : Type) : Type :=
| Ok (a : A)
| Raise (e : exn).
Arguments Ok {A} a.
Arguments Raise {A} e.

Definition bind {A B : Type} (m : result A) (k : A -> result B) : result B :=
  match m with
  | Ok a => k a
  | Raise e => Raise e
  end.

Notation "x <- m ;; k" := (bind m (fun x => k))
  (at level 61, m at next level, right associativity).

(** [parts[i]] for a non-negative [i]. *)
Definition getitem {A : Type} (parts : list A) (i : nat) : result A :=
  match nth_error parts i with
  | Some x => Ok x
  | None => Raise IndexError
  end.

(** ** [process_phone] *)

Definition lit_plus7_open : str := Eval vm_compute in py_str "+7(".
Definition lit_close : str := Eval vm_compute in py_str ")".
Definition lit_dash : str := Eval vm_compute in py_str "-".

Definition process_phone (phone : str) : str :=
  if negb (truthy phone) then []
  else
    let digits := strip_non_digits phone in
    let digits :=
      if startswith c_8 digits then c_7 :: skipn 1 digits else digits in
    if (length digits =? 11) && startswith c_7 digits then
      let main_number := skipn 1 digits in
      lit_plus7_open ++ firstn 3 main_number ++ lit_close
        ++ firstn 3 (skipn 3 main_number) ++ lit_dash
        ++ firstn 2 (skipn 6 main_number) ++ lit_dash
        ++ skipn 8 main_number
    else phone.

(** ** The extension marker [доб\.?\s*] of [re.split] *)

(** The pattern tried at the start of [s], case-insensitively: the three
    letters, an optional period, then as much white space as there is.
    The answer is the text left after the match. *)
Definition match_marker (s : str) : option str :=
  match s with
  | c1 :: c2 :: c3 :: rest =>
      if ci_de c1 && ci_o c2 && ci_be c3 then
        let rest := if startswith c_dot rest then skipn 1 rest else rest in
        Some (drop_while is_space rest)
      else None
  | _ => None
  end.

(** The leftmost match in [s]: the text before it and the text after it. *)
Fixpoint re_search (s : str) : option (str * str) :=
  match match_marker s with
  | Some after => Some ([], after)
  | None =>
      match s with
      | [] => None
      | c :: s' =>
          match re_search s' with
          | Some (before, after) => Some (c :: before, after)
          | None => None
          end
      end
  end.

Lemma drop_while_length (p : char -> bool) (s : str) :
  length (drop_while p s) <= length s.
Proof.
  induction s as [|c s IH]; simpl; [lia|].
  destruct (p c); simpl; lia.
Qed.

Lemma match_marker_shorter (s after : str) :
  match_marker s = Some after -> length after + 3 <= length s.
Proof.
  destruct s as [|c1 [|c2 [|c3 rest]]]; simpl; try discriminate.
  destruct (ci_de c1 && ci_o c2 && ci_be c3); [|discriminate].
  intros H. injection H as <-.
  destruct rest as [|d rest]; simpl; [lia|].
  destruct (char_eqb d c_dot); simpl.
  - pose proof (drop_while_length is_space rest). lia.
  - pose proof (drop_while_length is_space (d :: rest)). simpl in *. lia.
Qed.

Lemma re_search_shorter (s before after : str) :
  re_search s = Some (before, after) ->
  length before + length after + 3 <= length s.
Proof.
  revert before after.
  induction s as [|c s IH]; intros before after.
  - simpl. discriminate.
  - cbn [re_search].
    destruct (match_marker (c :: s)) as [a|] eqn:Hm.
    + intros H. injection H as <- <-.
      apply match_marker_shorter in Hm. simpl in *. lia.
    + destruct (re_search s) as [[b a]|]; [|discriminate].
      intros H. injection H as <- <-.
      specialize (IH b a eq_refl). simpl. lia.
Qed.

Definition inspect {A : Type} (a : A) : {b : A | a = b} := exist _ a eq_refl.

(** [re.split(r'доб\.?\s*', s, flags=re.IGNORECASE)]: the text before each
    match in turn, then what is left after the last one. *)
Equations? re_split (s : str) : list str by wf (length s) lt :=
  re_split s with inspect (re_search s) := {
    | exist _ None _ := [s];
    | exist _ (Some (before, after)) H := before :: re_split after }.
Proof.
  apply re_search_shorter in H. lia.
Qed.

Lemma re_split_step (s : str) :
  re_split s =
  match re_search s with
  | None => [s]
  | Some (before, after) => before :: re_split after
  end.
Proof.
  funelim (re_split s);
    match goal with E : re_search _ = _ |- _ => rewrite E end;
    reflexivity.
Qed.

(** ** [process_phone_with_extension] *)

Definition lit_marker : str := Eval vm_compute in py_str "доб".
Definition lit_ext : str := Eval vm_compute in py_str " доб.".

Definition process_phone_with_extension (phone : str) : result str :=
  if negb (truthy phone) then Ok []
  else if contains lit_marker (lower phone) then
    let parts := re_split phone in
    p0 <- getitem parts 0 ;;
    let main_phone := process_phone p0 in
    extension <-
      (if 1 <? length parts
       then p1 <- getitem parts 1 ;; Ok (strip_non_digits p1)
       else Ok []) ;;
    Ok (if truthy extension then main_phone ++ lit_ext ++ extension
        else main_phone)
  else Ok (process_phone phone).

(** ** [parse_fio] *)

(** Python truthiness of a list: [if parts] holds for a non-empty list. *)
Definition truthy_list {A : Type} (l : list A) : bool :=
  match l with [] => false | _ :: _ => true end.

Definition parse_fio (fio_string : str) : result (str * str * str) :=
  let parts := split_on c_space (strip fio_string) in
  let parts := filter truthy parts in
  if 3 <=? length parts then
    lastname <- getitem parts 0 ;;
    firstname <- getitem parts 1 ;;
    surname <- getitem parts 2 ;;
    Ok (lastname, firstname, surname)
  else if length parts =? 2 then
    lastname <- getitem parts 0 ;;
    firstname <- getitem parts 1 ;;
    Ok (lastname, firstname, [])
  else
    lastname <- (if truthy_list parts then getitem parts 0 else Ok []) ;;
    Ok (lastname, [], []).

(** ** Contacts *)

(** A contact is the dict with the seven string entries that
    [read_phonebook] builds; an absent value is the empty string. *)
Record contact : Type := mk_contact {
  lastname : str;
  firstname : str;
  surname : str;
  organization : str;
  position : str;
  phone : str;
  email : str
}.

(** The dict keys, for [contact[field]] with a computed [field]. *)
Inductive field : Type :=
| Lastname | Firstname | Surname | Organization | Position | Phone | Email.

Definition all_fields : list field :=
  [Lastname; Firstname; Surname; Organization; Position; Phone; Email].

(** [contact[field]]. *)
Definition get (f : field) (c : contact) : str :=
  match f with
  | Lastname => lastname c
  | Firstname => firstname c
  | Surname => surname c
  | Organization => organization c
  | Position => position c
  | Phone => phone c
  | Email => email c
  end.

(** [contact[field] = v]. *)
Definition set (f : field) (v : str) (c : contact) : contact :=
  match f with
  | Lastname =>
      mk_contact v (firstname c) (surname c) (organization c) (position c)
        (phone c) (email c)
  | Firstname =>
      mk_contact (lastname c) v (surname c) (organization c) (position c)
        (phone c) (email c)
  | Surname =>
      mk_contact (lastname c) (firstname c) v (organization c) (position c)
        (phone c) (email c)
  | Organization =>
      mk_contact (lastname c) (firstname c) (surname c) v (position c)
        (phone c) (email c)
  | Position =>
      mk_contact (lastname c) (firstname c) (surname c) (organization c) v
        (phone c) (email c)
  | Phone =>
      mk_contact (lastname c) (firstname c) (surname c) (organization c)
        (position c) v (email c)
  | Email =>
      mk_contact (lastname c) (firstname c) (surname c) (organization c)
        (position c) (phone c) v
  end.

(** ** [merge_contacts] *)

(** The grouping key [(contact['lastname'], contact['firstname'])]. *)
Definition key : Type := (str * str)%type.

Definition key_of (c : contact) : key := (lastname c, firstname c).

Definition key_eqb (a b : key) : bool :=
  str_eqb (fst a) (fst b) && str_eqb (snd a) (snd b).

(** [merged] is a [defaultdict]: a dict keeps its entries in the order the
    keys were first inserted, and [list(merged.values())] reads them in that
    order, so the model is an association list in insertion order. *)
Definition dict : Type := list (key * contact).

(** What the [lambda] makes for a key seen for the first time. *)
Definition default_contact : contact := mk_contact [] [] [] [] [] [] [].

Fixpoint lookup (k : key) (d : dict) : option contact :=
  match d with
  | [] => None
  | (k', a) :: d' => if key_eqb k' k then Some a else lookup k d'
  end.

(** [merged[key]]: a missing key is inserted with the default value, after
    the entries already there, and that value is the answer. *)
Definition dd_getitem (k : key) (d : dict) : contact * dict :=
  match lookup k d with
  | Some a => (a, d)
  | None => (default_contact, d ++ [(k, default_contact)])
  end.

(** The store [...[field] = v] on the entry that [merged[key]] gave. *)
Fixpoint set_item_field (k : key) (f : field) (v : str) (d : dict) : dict :=
  match d with
  | [] => []
  | (k', a) :: d' =>
      if key_eqb k' k then (k', set f v a) :: d'
      else (k', a) :: set_item_field k f v d'
  end.

(** [if contact[field] and not merged[key][field]:
        merged[key][field] = contact[field]].
    [and] does not evaluate [merged[key]] when [contact[field]] is empty,
    so no entry is made for the key then. *)
Definition merge_field (k : key) (c : contact) (merged : dict) (f : field)
  : dict :=
  if truthy (get f c) then
    let '(acc, merged) := dd_getitem k merged in
    if negb (truthy (get f acc)) then
      let '(_, merged) := dd_getitem k merged in
      set_item_field k f (get f c) merged
    else merged
  else merged.

(** The body of the loop over [contacts_list]. *)
Definition merge_one (merged : dict) (c : contact) : dict :=
  let k := key_of c in
  let merged :=
    fold_left (merge_field k c)
      [Lastname; Firstname; Surname; Organization; Position] merged in
  let merged := merge_field k c merged Phone in
  merge_field k c merged Email.

Definition merge_loop (contacts_list : list contact) (merged : dict) : dict :=
  fold_left merge_one contacts_list merged.

Definition merge_contacts (contacts_list : list contact) : list contact :=
  map snd (merge_loop contacts_list []).

(** ** [process_address_book] *)

(** What the run shows: the three counts printed, the rows handed to
    [write_phonebook], the closing line. *)
Inductive event : Type :=
| PrintRead (n : nat)
| PrintProcessed (n : nat)
| PrintMerged (n : nat)
| WritePhonebook (rows : list contact)
| PrintWritten.

(** The body of the loop over [raw_contacts]. *)
Definition process_record (c : contact) : result contact :=
  let fio_parts := [] in
  let fio_parts :=
    if truthy (lastname c) then fio_parts ++ [lastname c] else fio_parts in
  let fio_parts :=
    if truthy (firstname c) then fio_parts ++ [firstname c] else fio_parts in
  let fio_parts :=
    if truthy (surname c) then fio_parts ++ [surname c] else fio_parts in
  let fio_string := join [c_space] fio_parts in
  fio <- parse_fio fio_string ;;
  let '(l, f, s) := fio in
  p <- process_phone_with_extension (phone c) ;;
  Ok (mk_contact l f s (organization c) (position c) p (email c)).

Fixpoint process_loop (raw_contacts : list contact)
  (processed_contacts : list contact) : result (list contact) :=
  match raw_contacts with
  | [] => Ok processed_contacts
  | c :: rest =>
      processed_contact <- process_record c ;;
      process_loop rest (processed_contacts ++ [processed_contact])
  end.

(** [raw_contacts] stands for what [read_phonebook(input_file)] returned. *)
Definition process_address_book (raw_contacts : list contact)
  : result (list event * list contact) :=
  processed_contacts <- process_loop raw_contacts [] ;;
  let final_contacts := merge_contacts processed_contacts in
  Ok ([ PrintRead (length raw_contacts);
        PrintProcessed (length processed_contacts);
        PrintMerged (length final_contacts);
        WritePhonebook final_contacts;
        PrintWritten ],
      final_contacts).

(** * Worked examples *)

Example py_str_marker : py_str "доб" = [c_de; c_o; c_be].
Proof. vm_compute. reflexivity. Qed.

Example process_phone_plain :
  process_phone (py_str "8 (916) 123-45-67") = py_str "+7(916)123-45-67".
Proof. vm_compute. reflexivity. Qed.

Example process_phone_plus7 :
  process_phone (py_str "+7 916 123 45 67") = py_str "+7(916)123-45-67".
Proof. vm_compute. reflexivity. Qed.

Example process_phone_abc : process_phone (py_str "abc") = py_str "abc".
Proof. vm_compute. reflexivity. Qed.

Example process_phone_short : process_phone (py_str "8 916") = py_str "8 916".
Proof. vm_compute. reflexivity. Qed.

Example re_split_two_markers :
  re_split (py_str "89161234567 доб. 12 доб. 34")
  = [py_str "89161234567 "; py_str "12 "; py_str "34"].
Proof. vm_compute. reflexivity. Qed.

Example re_split_upper :
  re_split (py_str "1ДОБ.2") = [py_str "1"; py_str "2"].
Proof. vm_compute. reflexivity. Qed.

Example re_split_marker_only : re_split (py_str "доб") = [[]; []].
Proof. vm_compute. reflexivity. Qed.

Example extension_example :
  process_phone_with_extension (py_str "+7 916 123-45-67 доб. 123")
  = Ok (py_str "+7(916)123-45-67 доб.123").
Proof. vm_compute. reflexivity. Qed.

Example extension_no_digits :
  process_phone_with_extension (py_str "8 916 123-45-67 доб.")
  = Ok (py_str "+7(916)123-45-67").
Proof. vm_compute. reflexivity. Qed.

Example parse_fio_three :
  parse_fio (py_str "Иванов Иван Иванович")
  = Ok (py_str "Иванов", py_str "Иван", py_str "Иванович").
Proof. vm_compute. reflexivity. Qed.

Example parse_fio_one : parse_fio (py_str "Иванов") = Ok (py_str "Иванов", [], []).
Proof. vm_compute. reflexivity. Qed.

Example parse_fio_empty : parse_fio [] = Ok ([], [], []).
Proof. vm_compute. reflexivity. Qed.

Example parse_fio_spaces :
  parse_fio (py_str "  Иванов   Иван ") = Ok (py_str "Иванов", py_str "Иван", []).
Proof. vm_compute. reflexivity. Qed.

Example parse_fio_four :
  parse_fio (py_str "a b c d") = Ok (py_str "a", py_str "b", py_str "c").
Proof. vm_compute. reflexivity. Qed.

Definition ivanov_phone : contact :=
  mk_contact (py_str "Иванов") (py_str "Иван") [] [] []
    (py_str "89161234567") (py_str "a@x.com").

Definition ivanov_job : contact :=
  mk_contact (py_str "Иванов") (py_str "Иван") (py_str "Иванович")
    (py_str "Firm") (py_str "Mgr") [] [].

Definition ivanov_merged : contact :=
  mk_contact (py_str "Иванов") (py_str "Иван") (py_str "Иванович")
    (py_str "Firm") (py_str "Mgr") (py_str "+7(916)123-45-67")
    (py_str "a@x.com").

Example end_to_end :
  process_address_book [ivanov_phone; ivanov_job]
  = Ok ([ PrintRead 2; PrintProcessed 2; PrintMerged 1;
          WritePhonebook [ivanov_merged]; PrintWritten ],
        [ivanov_merged]).
Proof. vm_compute. reflexivity. Qed.

Definition ivanov_111 : contact :=
  mk_contact (py_str "Иванов") (py_str "Иван") [] [] [] (py_str "111") [].

Definition ivanov_222 : contact :=
  mk_contact (py_str "Иванов") (py_str "Иван") [] [] [] (py_str "222") [].

Definition ivanov_bare : contact :=
  mk_contact (py_str "Иванов") (py_str "Иван") [] [] [] [] [].

Definition petrov : contact :=
  mk_contact (py_str "Петров") [] [] [] [] [] [].

Definition firm_only : contact :=
  mk_contact [] [] [] (py_str "Firm") [] [] [].

Example merge_first_phone :
  merge_contacts [ivanov_111; ivanov_222] = [ivanov_111].
Proof. vm_compute. reflexivity. Qed.

Example merge_all_empty : merge_contacts [default_contact] = [].
Proof. vm_compute. reflexivity. Qed.

(** * Properties *)

(** ** Equality tests *)

Lemma char_eqb_eq (a b : char) : char_eqb a b = true <-> a = b.
Proof. apply N.eqb_eq. Qed.

Lemma str_eqb_eq (a b : str) : str_eqb a b = true <-> a = b.
Proof.
  revert b. induction a as [|x a IH]; intros [|y b]; simpl;
    try (split; [discriminate | congruence]); [tauto|].
  rewrite andb_true_iff, char_eqb_eq, IH.
  split; [intros [-> ->]; reflexivity | intros H; injection H; auto].
Qed.

Lemma key_eqb_eq (a b : key) : key_eqb a b = true <-> a = b.
Proof.
  destruct a as [a1 a2], b as [b1 b2]. unfold key_eqb. simpl.
  rewrite andb_true_iff, !str_eqb_eq.
  split; [intros [-> ->]; reflexivity | intros H; injection H; auto].
Qed.

Lemma key_eqb_refl (a : key) : key_eqb a a = true.
Proof. apply key_eqb_eq. reflexivity. Qed.

Lemma key_eqb_neq (a b : key) : key_eqb a b = false <-> a <> b.
Proof.
  rewrite <- key_eqb_eq. destruct (key_eqb a b); split; congruence.
Qed.

Lemma key_eqb_sym (a b : key) : key_eqb a b = key_eqb b a.
Proof.
  destruct (key_eqb a b) eqn:E.
  - apply key_eqb_eq in E. subst. symmetry. apply key_eqb_refl.
  - symmetry. apply key_eqb_neq. apply key_eqb_neq in E. congruence.
Qed.

(** ** The library models do what the library calls do *)

Lemma drop_while_split (p : char -> bool) (s : str) :
  exists ws,
    s = ws ++ drop_while p s /\ forallb p ws = true
    /\ (forall c t, drop_while p s = c :: t -> p c = false).
Proof.
  induction s as [|c s (ws & Hs & Hws & Hhd)]; simpl.
  - exists []. repeat split. discriminate.
  - destruct (p c) eqn:E.
    + exists (c :: ws). simpl. rewrite E, Hws. repeat split.
      * f_equal. exact Hs.
      * exact Hhd.
    + exists []. repeat split. intros c' t H. injection H as <- _. exact E.
Qed.

(** [strip] removes a run of white space at each end, and what is left
    neither starts nor ends with white space. *)
Lemma strip_spec (s : str) :
  exists l r,
    s = l ++ strip s ++ r
    /\ forallb is_space l = true /\ forallb is_space r = true
    /\ (forall c t, strip s = c :: t -> is_space c = false)
    /\ (forall t c, strip s = t ++ [c] -> is_space c = false).
Proof.
  unfold strip.
  destruct (drop_while_split is_space s) as (l & Hs & Hl & Hhd).
  destruct (drop_while_split is_space (rev (drop_while is_space s)))
    as (r' & Hr & Hr' & Hlast).
  set (s1 := drop_while is_space s) in *.
  set (s2 := drop_while is_space (rev s1)) in *.
  assert (Hs1 : s1 = rev s2 ++ rev r').
  { rewrite <- rev_app_distr, <- Hr, rev_involutive. reflexivity. }
  exists l, (rev r'). repeat split.
  - rewrite <- Hs1. exact Hs.
  - exact Hl.
  - rewrite forallb_forall in *. intros x Hx. apply Hr'.
    apply in_rev. exact Hx.
  - intros c t Ht. apply (Hhd c (t ++ rev r')).
    rewrite Hs1, Ht. reflexivity.
  - intros t c Ht. apply (Hlast c (rev t)).
    rewrite <- (rev_involutive s2), Ht, rev_app_distr. reflexivity.
Qed.

Lemma split_on_nonempty (sep : char) (s : str) : split_on sep s <> [].
Proof.
  destruct s as [|c s]; simpl; [discriminate|].
  destruct (char_eqb c sep); [discriminate|].
  destruct (split_on sep s); discriminate.
Qed.

(** The pieces of [split_on] joined by the separator give the string back,
    and no piece holds the separator. *)
Lemma split_on_join (sep : char) (s : str) :
  join [sep] (split_on sep s) = s.
Proof.
  induction s as [|c s IH]; [reflexivity|].
  cbn [split_on]. destruct (char_eqb c sep) eqn:E.
  - apply char_eqb_eq in E. subst c.
    pose proof (split_on_nonempty sep s) as Hne.
    destruct (split_on sep s) as [|p ps]; [contradiction|].
    change (join [sep] ([] :: p :: ps))
      with ([] ++ [sep] ++ join [sep] (p :: ps)).
    rewrite IH. reflexivity.
  - destruct (split_on sep s) as [|p ps]; [rewrite <- IH; reflexivity|].
    rewrite <- IH. destruct ps; reflexivity.
Qed.

Lemma split_on_no_sep (sep : char) (s : str) :
  Forall (fun p => ~ In sep p) (split_on sep s).
Proof.
  induction s as [|c s IH]; cbn [split_on].
  - constructor; [tauto | constructor].
  - destruct (char_eqb c sep) eqn:E.
    + constructor; [tauto | exact IH].
    + destruct (split_on sep s) as [|p ps];
        [constructor; [|constructor] | inversion IH; subst; constructor; auto];
        intros [H | H]; try tauto;
        subst; unfold char_eqb in E; rewrite N.eqb_refl in E; discriminate.
Qed.

(** The marker pattern matches the three letters in either case, then a
    period if there is one, then all the white space that follows. *)
Lemma match_marker_shape (s after : str) :
  match_marker s = Some after ->
  exists c1 c2 c3 dot ws,
    s = [c1; c2; c3] ++ dot ++ ws ++ after
    /\ ci_de c1 = true /\ ci_o c2 = true /\ ci_be c3 = true
    /\ (dot = [c_dot] \/ dot = [] /\ startswith c_dot (ws ++ after) = false)
    /\ forallb is_space ws = true
    /\ (forall c t, after = c :: t -> is_space c = false).
Proof.
  destruct s as [|c1 [|c2 [|c3 rest]]]; cbn [match_marker]; try discriminate.
  destruct (ci_de c1) eqn:H1, (ci_o c2) eqn:H2, (ci_be c3) eqn:H3;
    cbn [andb]; try discriminate.
  intros H. injection H as <-.
  exists c1, c2, c3.
  destruct (startswith c_dot rest) eqn:Hdot.
  - destruct rest as [|d rest]; [discriminate Hdot|].
    cbn [startswith] in Hdot. apply char_eqb_eq in Hdot. subst d.
    destruct (drop_while_split is_space rest) as (ws & Hs & Hws & Hhd).
    exists [c_dot], ws. cbn [skipn app]. repeat split; auto.
    f_equal. f_equal. f_equal. f_equal. exact Hs.
  - destruct (drop_while_split is_space rest) as (ws & Hs & Hws & Hhd).
    exists [], ws. cbn [app]. rewrite <- Hs. repeat split; auto.
Qed.

(** [re_search] finds the leftmost position at which the pattern matches. *)
Lemma re_search_first (s main after : str) :
  re_search s = Some (main, after) ->
  exists m,
    s = main ++ m /\ match_marker m = Some after
    /\ (forall i, i < length main -> match_marker (skipn i s) = None).
Proof.
  revert main. induction s as [|c s IH]; intros main.
  - cbn. discriminate.
  - cbn [re_search]. destruct (match_marker (c :: s)) as [a|] eqn:Hm.
    + intros H. injection H as <- <-. exists (c :: s).
      repeat split; [exact Hm|]. cbn. intros i Hi. lia.
    + destruct (re_search s) as [[b a]|] eqn:Hs; [|discriminate].
      intros H. injection H as <- <-.
      destruct (IH b eq_refl) as (m & E & Hmm & Hfirst).
      exists m. repeat split; [cbn; f_equal; exact E | exact Hmm |].
      intros [|i] Hi; [exact Hm|]. cbn [skipn]. apply Hfirst.
      cbn in Hi. lia.
Qed.

Lemma re_search_none (s : str) :
  re_search s = None -> forall i, match_marker (skipn i s) = None.
Proof.
  induction s as [|c s IH]; intros H i.
  - destruct i; reflexivity.
  - cbn [re_search] in H.
    destruct (match_marker (c :: s)) eqn:Hm; [discriminate|].
    destruct i; [exact Hm|]. cbn [skipn]. apply IH.
    destruct (re_search s) as [[b a]|]; [discriminate | reflexivity].
Qed.

(** ** Phone numbers *)

(** The spec's pattern, [X] standing for one decimal digit. *)
Definition pattern_canonical : str :=
  Eval vm_compute in py_str "+7(XXX)XXX-XX-XX".

Definition c_X : char := 88%N.

Fixpoint matches_pattern (pat s : str) : bool :=
  match pat, s with
  | [], [] => true
  | p :: pat', c :: s' =>
      (if char_eqb p c_X then is_digit c else char_eqb p c)
      && matches_pattern pat' s'
  | _, _ => false
  end.

Definition is_canonical (s : str) : bool := matches_pattern pattern_canonical s.

(** [+7(XXX)XXX-XX-XX], alone or followed by [ доб.] and one or more
    digits. *)
Definition is_canonical_ext (s : str) : bool :=
  is_canonical (firstn 16 s)
  && match skipn 16 s with
     | [] => true
     | tail =>
         is_prefix lit_ext tail && truthy (skipn 5 tail)
         && forallb is_digit (skipn 5 tail)
     end.

(** The digit sequence [process_phone] tests: non-digits removed, a leading
    8 replaced by 7. *)
Definition cleaned_digits (raw : str) : str :=
  let d := filter is_digit raw in
  if startswith c_8 d then c_7 :: tl d else d.

(** The formatted number for the ten digits after the country code. *)
Definition formatted (a b c e f g h i j k : char) : str :=
  lit_plus7_open ++ [a; b; c] ++ lit_close ++ [e; f; g] ++ lit_dash
    ++ [h; i] ++ lit_dash ++ [j; k].

Lemma process_phone_cases (raw : str) :
  process_phone raw =
    match cleaned_digits raw with
    | [x; a; b; c; e; f; g; h; i; j; k] =>
        if char_eqb x c_7 then formatted a b c e f g h i j k else raw
    | _ => raw
    end.
Proof.
  unfold process_phone, cleaned_digits, strip_non_digits.
  destruct raw as [|r0 raw]; [reflexivity|].
  cbn [truthy negb].
  set (d := filter is_digit (r0 :: raw)).
  replace (skipn 1 d) with (tl d) by (destruct d; reflexivity).
  assert (Hlist : forall d' : str,
    (if (length d' =? 11) && startswith c_7 d'
     then lit_plus7_open ++ firstn 3 (skipn 1 d') ++ lit_close
            ++ firstn 3 (skipn 3 (skipn 1 d')) ++ lit_dash
            ++ firstn 2 (skipn 6 (skipn 1 d')) ++ lit_dash
            ++ skipn 8 (skipn 1 d')
     else r0 :: raw) =
    match d' with
    | [x; a; b; c; e; f; g; h; i; j; k] =>
        if char_eqb x c_7 then formatted a b c e f g h i j k else r0 :: raw
    | _ => r0 :: raw
    end).
  { intros d'.
    destruct d' as [|x [|a [|b [|c [|e [|f [|g [|h [|i [|j [|k [|z d']]]]]]]]]]]];
      reflexivity. }
  exact (Hlist (if startswith c_8 d then c_7 :: tl d else d)).
Qed.

(** C2. [process_phone] removes every non-digit and turns a leading 8 into
    7; when that leaves exactly eleven digits of which the first is 7, the
    answer is [+7(ABC)DEF-GH-IJ] for the ten digits that follow, split
    3/3/2/2; in every other case the answer is the raw string itself, and
    the empty string gives the empty string. *)
Theorem process_phone_spec (raw : str) :
  process_phone raw =
    match cleaned_digits raw with
    | [x; a; b; c; e; f; g; h; i; j; k] =>
        if char_eqb x c_7 then formatted a b c e f g h i j k else raw
    | _ => raw
    end
  /\ process_phone [] = [].
Proof.
  split; [apply process_phone_cases | reflexivity].
Qed.

Lemma filter_all (p : char -> bool) (s : str) :
  forallb p (filter p s) = true.
Proof.
  induction s as [|c s IH]; simpl; [reflexivity|].
  destruct (p c) eqn:E; simpl; [rewrite E|]; exact IH.
Qed.

Lemma cleaned_digits_tail (raw : str) (x : char) (rest : str) :
  cleaned_digits raw = x :: rest -> forallb is_digit rest = true.
Proof.
  unfold cleaned_digits.
  pose proof (filter_all is_digit raw) as Hall.
  destruct (filter is_digit raw) as [|d0 d]; simpl in *.
  - discriminate.
  - apply andb_true_iff in Hall. destruct Hall as [_ Hall].
    destruct (char_eqb d0 c_8); intros H; injection H as _ <-; exact Hall.
Qed.

(** What [process_phone] returns is the raw string or a canonical number. *)
Lemma process_phone_shape (raw : str) :
  process_phone raw = raw \/ is_canonical (process_phone raw) = true.
Proof.
  rewrite (process_phone_cases raw).
  destruct (cleaned_digits raw)
    as [|x [|a [|b [|c [|e [|f [|g [|h [|i [|j [|k [|z d']]]]]]]]]]]] eqn:E;
    try (left; reflexivity).
  destruct (char_eqb x c_7); [right | left; reflexivity].
  apply cleaned_digits_tail in E. simpl in E.
  repeat (apply andb_true_iff in E; destruct E as [? E]).
  unfold is_canonical, formatted. cbn.
  repeat match goal with H : is_digit _ = true |- _ => rewrite H; clear H end.
  reflexivity.
Qed.

(** ** The marker test and the split agree *)

Definition c_De : char := 1044%N.   (* Д *)
Definition c_O : char := 1054%N.    (* О *)
Definition c_Be : char := 1041%N.   (* Б *)

Ltac lower_char_cases H :=
  unfold lower_char in H;
  repeat match type of H with
         | context [(?a <=? ?b)%N] => destruct (N.leb_spec a b)
         end;
  cbn [andb] in H.

Lemma lower_char_de (c : char) :
  lower_char c = c_de <-> c = c_de \/ c = c_De.
Proof.
  unfold c_de, c_De. split.
  - intros H. lower_char_cases H; lia.
  - intros [-> | ->]; reflexivity.
Qed.

Lemma lower_char_o (c : char) :
  lower_char c = c_o <-> c = c_o \/ c = c_O.
Proof.
  unfold c_o, c_O. split.
  - intros H. lower_char_cases H; lia.
  - intros [-> | ->]; reflexivity.
Qed.

Lemma lower_char_be (c : char) :
  lower_char c = c_be <-> c = c_be \/ c = c_Be.
Proof.
  unfold c_be, c_Be. split.
  - intros H. lower_char_cases H; lia.
  - intros [-> | ->]; reflexivity.
Qed.

Lemma marker_prefix (s : str) :
  is_prefix lit_marker (lower s) = true <->
  exists c1 c2 c3 post,
    s = c1 :: c2 :: c3 :: post
    /\ lower_char c1 = c_de /\ lower_char c2 = c_o /\ lower_char c3 = c_be.
Proof.
  unfold lit_marker. split.
  - destruct s as [|c1 [|c2 [|c3 post]]]; cbn [lower map is_prefix];
      try discriminate; rewrite ?andb_false_r; try discriminate.
    rewrite andb_true_r, !andb_true_iff, !char_eqb_eq.
    intros (H1 & H2 & H3). exists c1, c2, c3, post.
    unfold c_de, c_o, c_be. auto.
  - intros (c1 & c2 & c3 & post & -> & H1 & H2 & H3).
    cbn [lower map is_prefix]. rewrite H1, H2, H3. reflexivity.
Qed.

Lemma contains_prefix (sub s : str) :
  is_prefix sub s = true -> contains sub s = true.
Proof. destruct s; simpl; intros ->; reflexivity. Qed.

(** ['доб' in phone.lower()] holds exactly when the string has the three
    letters in a row, each of them small or capital. *)
Lemma marker_test_spec (s : str) :
  contains lit_marker (lower s) = true <->
  exists pre c1 c2 c3 post,
    s = pre ++ c1 :: c2 :: c3 :: post
    /\ (c1 = c_de \/ c1 = c_De) /\ (c2 = c_o \/ c2 = c_O)
    /\ (c3 = c_be \/ c3 = c_Be).
Proof.
  split.
  - induction s as [|c s IH].
    + cbn. discriminate.
    + change (lower (c :: s)) with (lower_char c :: lower s).
      cbn [contains]. intros H. apply orb_true_iff in H.
      destruct H as [H | H].
      * apply (marker_prefix (c :: s)) in H.
        destruct H as (c1 & c2 & c3 & post & E & H1 & H2 & H3).
        exists [], c1, c2, c3, post.
        rewrite lower_char_de in H1. rewrite lower_char_o in H2.
        rewrite lower_char_be in H3. auto.
      * destruct (IH H) as (pre & c1 & c2 & c3 & post & -> & Hc).
        exists (c :: pre), c1, c2, c3, post. auto.
  - intros (pre & c1 & c2 & c3 & post & -> & H1 & H2 & H3).
    apply lower_char_de in H1. apply lower_char_o in H2.
    apply lower_char_be in H3.
    induction pre as [|x pre IH].
    + apply contains_prefix, marker_prefix. exists c1, c2, c3, post. auto.
    + change (lower ((x :: pre) ++ c1 :: c2 :: c3 :: post))
        with (lower_char x :: lower (pre ++ c1 :: c2 :: c3 :: post)).
      cbn [contains]. rewrite IH. apply orb_true_r.
Qed.

Lemma marker_prefix_matches (s : str) :
  is_prefix lit_marker (lower s) = true -> exists after, match_marker s = Some after.
Proof.
  intros H. apply marker_prefix in H.
  destruct H as (c1 & c2 & c3 & post & -> & H1 & H2 & H3).
  apply lower_char_de in H1. apply lower_char_o in H2.
  apply lower_char_be in H3.
  assert (E1 : ci_de c1 = true) by (destruct H1 as [-> | ->]; reflexivity).
  assert (E2 : ci_o c2 = true) by (destruct H2 as [-> | ->]; reflexivity).
  assert (E3 : ci_be c3 = true) by (destruct H3 as [-> | ->]; reflexivity).
  cbn [match_marker]. rewrite E1, E2, E3. cbn [andb]. eauto.
Qed.

(** When ['доб' in phone.lower()] holds, the pattern of [re.split] has a
    match, so [parts] has a second element. *)
Lemma marker_found (s : str) :
  contains lit_marker (lower s) = true ->
  exists main after, re_search s = Some (main, after).
Proof.
  induction s as [|c s IH].
  - cbn. discriminate.
  - intros H. cbn [re_search].
    change (lower (c :: s)) with (lower_char c :: lower s) in H.
    cbn [contains] in H. apply orb_true_iff in H. destruct H as [H | H].
    + apply (marker_prefix_matches (c :: s)) in H. destruct H as [after ->].
      eauto.
    + destruct (match_marker (c :: s)); [eauto|].
      destruct (IH H) as (main & after & ->). eauto.
Qed.

(** The text up to the next marker, or all of it when there is none:
    the first element of [re_split]. *)
Definition upto_marker (s : str) : str :=
  match re_search s with
  | Some (before, _) => before
  | None => s
  end.

Lemma re_split_head (s : str) :
  exists rest, re_split s = upto_marker s :: rest.
Proof.
  rewrite re_split_step. unfold upto_marker.
  destruct (re_search s) as [[before after]|]; eauto.
Qed.

(** The marker branch of [process_phone_with_extension], evaluated. *)
Lemma with_extension_marker (s main after : str) :
  truthy s = true ->
  contains lit_marker (lower s) = true ->
  re_search s = Some (main, after) ->
  process_phone_with_extension s =
    Ok (let digits := strip_non_digits (upto_marker after) in
        if truthy digits then process_phone main ++ lit_ext ++ digits
        else process_phone main).
Proof.
  intros Hs Hmark Hsearch. unfold process_phone_with_extension.
  rewrite Hs, Hmark. cbn [negb].
  rewrite re_split_step, Hsearch.
  destruct (re_split_head after) as [rest ->].
  reflexivity.
Qed.

Lemma with_extension_plain (s : str) :
  contains lit_marker (lower s) = false ->
  process_phone_with_extension s = Ok (process_phone s).
Proof.
  intros Hmark. unfold process_phone_with_extension. rewrite Hmark.
  destruct s; reflexivity.
Qed.

Lemma matches_pattern_length (pat s : str) :
  matches_pattern pat s = true -> length s = length pat.
Proof.
  revert s. induction pat as [|p pat IH]; intros [|c s]; simpl;
    try discriminate; [reflexivity|].
  intros H. apply andb_true_iff in H. destruct H as [_ H].
  f_equal. apply IH. exact H.
Qed.

Lemma firstn_length_app (m x : str) : firstn (length m) (m ++ x) = m.
Proof. induction m as [|c m IH]; simpl; [destruct x|]; congruence. Qed.

Lemma skipn_length_app (m x : str) : skipn (length m) (m ++ x) = x.
Proof. induction m as [|c m IH]; simpl; congruence. Qed.

Lemma is_prefix_app (p x : str) : is_prefix p (p ++ x) = true.
Proof.
  induction p as [|c p IH]; simpl; [reflexivity|].
  unfold char_eqb. rewrite N.eqb_refl. exact IH.
Qed.

Lemma canonical_ext_app (m x : str) :
  is_canonical m = true ->
  is_canonical_ext (m ++ x) =
    match x with
    | [] => true
    | _ =>
        is_prefix lit_ext x && truthy (skipn 5 x)
        && forallb is_digit (skipn 5 x)
    end.
Proof.
  intros H. pose proof (matches_pattern_length _ _ H) as Hlen.
  unfold is_canonical_ext.
  replace 16 with (length m) by exact Hlen.
  rewrite firstn_length_app, skipn_length_app, H.
  destruct x; reflexivity.
Qed.

Lemma canonical_is_canonical_ext (m : str) :
  is_canonical m = true -> is_canonical_ext m = true.
Proof.
  intros H. rewrite <- (app_nil_r m). rewrite (canonical_ext_app m [] H).
  reflexivity.
Qed.

Lemma canonical_with_extension (m digits : str) :
  is_canonical m = true ->
  truthy digits = true ->
  forallb is_digit digits = true ->
  is_canonical_ext (m ++ lit_ext ++ digits) = true.
Proof.
  intros H Ht Hd. rewrite (canonical_ext_app m _ H).
  change 5 with (length lit_ext).
  rewrite is_prefix_app, skipn_length_app, Ht, Hd. reflexivity.
Qed.

(** C1, as it holds.  The value of [process_phone_with_extension] is
    the input unchanged, or a canonical number [+7(XXX)XXX-XX-XX] that may
    be followed by [ доб.] and digits, or else the text before the first
    extension marker, unchanged, alone or followed by [ доб.] and one or
    more digits. *)
Theorem with_extension_shape (s : str) :
  exists r,
    process_phone_with_extension s = Ok r /\
    (r = s \/ is_canonical_ext r = true \/
     exists main after,
       re_search s = Some (main, after) /\
       (r = main \/
        exists digits,
          digits <> [] /\ forallb is_digit digits = true /\
          r = main ++ lit_ext ++ digits)).
Proof.
  destruct (contains lit_marker (lower s)) eqn:Hmark.
  - destruct (marker_found s Hmark) as (main & after & Hsearch).
    assert (Hs : truthy s = true).
    { destruct s; [discriminate Hmark | reflexivity]. }
    rewrite (with_extension_marker s main after Hs Hmark Hsearch).
    eexists. split; [reflexivity|]. cbv zeta.
    pose proof (filter_all is_digit (upto_marker after)) as Hdig.
    fold (strip_non_digits (upto_marker after)) in Hdig.
    destruct (strip_non_digits (upto_marker after)) as [|d ds] eqn:Hext;
      cbn [truthy];
      destruct (process_phone_shape main) as [Hraw | Hcan].
    + right. right. exists main, after. split; [exact Hsearch|]. left. exact Hraw.
    + right. left. apply canonical_is_canonical_ext. exact Hcan.
    + right. right. exists main, after. split; [exact Hsearch|]. right.
      exists (d :: ds). rewrite Hraw. repeat split; [discriminate | exact Hdig].
    + right. left. apply canonical_with_extension; [exact Hcan | reflexivity | exact Hdig].
  - rewrite (with_extension_plain s Hmark).
    eexists. split; [reflexivity|].
    destruct (process_phone_shape s) as [Hraw | Hcan].
    + left. exact Hraw.
    + right. left. apply canonical_is_canonical_ext. exact Hcan.
Qed.

(** C1 as the spec has it fails: a number that cannot be normalised keeps
    its text, and the extension is still rewritten after it. *)
Lemma with_extension_shape_counterexample :
  process_phone_with_extension (py_str "123 доб. 45")
    = Ok (py_str "123  доб.45")
  /\ py_str "123  доб.45" <> py_str "123 доб. 45"
  /\ is_canonical_ext (py_str "123  доб.45") = false.
Proof.
  split; [vm_compute; reflexivity|].
  split; [vm_compute; discriminate | vm_compute; reflexivity].
Qed.

(** The reading of C3 in the spec: the extension part is everything after
    the first marker. *)
Definition with_extension_spec (s : str) : str :=
  match re_search s with
  | Some (main, after) =>
      let digits := strip_non_digits after in
      if truthy digits then process_phone main ++ lit_ext ++ digits
      else process_phone main
  | None => process_phone s
  end.

(** C3, as it holds.  When the lowered input contains [доб], the input is
    cut at the first marker; the text before it goes through
    [process_phone]; the extension digits are those of the text between
    that marker and the next one (or the end of the input); the answer is
    the normalised main part, followed by [ доб.] and the digits when
    there is at least one.  Without the marker the whole input goes
    through [process_phone]. *)
Theorem with_extension_split (s : str) :
  (contains lit_marker (lower s) = true ->
   exists main after,
     re_search s = Some (main, after) /\
     process_phone_with_extension s =
       Ok (let digits := strip_non_digits (upto_marker after) in
           if truthy digits then process_phone main ++ lit_ext ++ digits
           else process_phone main))
  /\ (contains lit_marker (lower s) = false ->
      process_phone_with_extension s = Ok (process_phone s)).
Proof.
  split.
  - intros Hmark.
    destruct (marker_found s Hmark) as (main & after & Hsearch).
    exists main, after. split; [exact Hsearch|].
    apply with_extension_marker; [|exact Hmark | exact Hsearch].
    destruct s; [discriminate Hmark | reflexivity].
  - apply with_extension_plain.
Qed.

Lemma with_extension_split_witness :
  exists main after,
    re_search (py_str "8 916 123-45-67 доб. 12") = Some (main, after) /\
    process_phone_with_extension (py_str "8 916 123-45-67 доб. 12") =
      Ok (let digits := strip_non_digits (upto_marker after) in
          if truthy digits then process_phone main ++ lit_ext ++ digits
          else process_phone main).
Proof.
  apply (proj1 (with_extension_split (py_str "8 916 123-45-67 доб. 12"))).
  vm_compute. reflexivity.
Defined.

(** C3 as the spec has it fails when the marker occurs twice: the digits
    after the second marker are not part of the extension. *)
Lemma with_extension_split_counterexample :
  contains lit_marker (lower (py_str "89161234567 доб. 12 доб. 34")) = true
  /\ process_phone_with_extension (py_str "89161234567 доб. 12 доб. 34")
       = Ok (py_str "+7(916)123-45-67 доб.12")
  /\ with_extension_spec (py_str "89161234567 доб. 12 доб. 34")
       = py_str "+7(916)123-45-67 доб.1234"
  /\ process_phone_with_extension (py_str "89161234567 доб. 12 доб. 34")
       <> Ok (with_extension_spec (py_str "89161234567 доб. 12 доб. 34")).
Proof.
  repeat split; try (vm_compute; reflexivity).
  vm_compute. discriminate.
Qed.

(** ** Names *)

(** The tokens of a full name: the non-empty pieces between single spaces
    of the trimmed string. *)
Definition tokens (s : str) : list str :=
  filter truthy (split_on c_space (strip s)).

(** A token is not empty and has no space in it. *)
Lemma tokens_spec (s : str) :
  Forall (fun t => t <> [] /\ ~ In c_space t) (tokens s).
Proof.
  unfold tokens. apply Forall_forall. intros t Ht.
  apply filter_In in Ht. destruct Ht as [Hin Ht]. split.
  - destruct t; discriminate.
  - pose proof (split_on_no_sep c_space (strip s)) as H.
    rewrite Forall_forall in H. apply H. exact Hin.
Qed.


(** ** No exception *)

Lemma with_extension_total (s : str) :
  exists r, process_phone_with_extension s = Ok r.
Proof.
  destruct (contains lit_marker (lower s)) eqn:Hmark.
  - destruct (marker_found s Hmark) as (main & after & Hsearch).
    rewrite (with_extension_marker s main after); eauto.
    destruct s; [discriminate Hmark | reflexivity].
  - rewrite (with_extension_plain s Hmark). eauto.
Qed.

Lemma parse_fio_total (s : str) :
  exists l f p, parse_fio s = Ok (l, f, p).
Proof.
  unfold parse_fio.
  destruct (filter truthy (split_on c_space (strip s))) as [|a [|b [|c l]]];
    cbn; eauto.
Qed.

(** C9. The functions that index a list never index it out of range:
    [process_phone_with_extension] and [parse_fio] return a value on every
    string.  [parts] of [re.split] is never empty, and [parts[0]] of
    [parse_fio] is read only from a non-empty list.  ([process_phone] and
    [merge_contacts] use slices and the [defaultdict] only, which cannot
    raise, and are total functions here.) *)
Theorem core_total :
  (forall s, exists r, process_phone_with_extension s = Ok r)
  /\ (forall s, exists l f p, parse_fio s = Ok (l, f, p))
  /\ (forall s, exists p0, getitem (re_split s) 0 = Ok p0)
  /\ (forall s, exists r, process_phone s = r)
  /\ (forall l, exists r, merge_contacts l = r).
Proof.
  split; [|split; [|split; [|split]]].
  - apply with_extension_total.
  - apply parse_fio_total.
  - intros s. destruct (re_split_head s) as [rest ->]. cbn. eauto.
  - eauto.
  - eauto.
Qed.

(** ** Merging: the dict operations *)

Definition field_eq_dec (f g : field) : {f = g} + {f <> g}.
Proof. decide equality. Defined.

Lemma get_set_same (f : field) (v : str) (a : contact) : get f (set f v a) = v.
Proof. destruct f; reflexivity. Qed.

Lemma get_set_other (f g : field) (v : str) (a : contact) :
  f <> g -> get f (set g v a) = get f a.
Proof. destruct f, g; intros H; try reflexivity; contradiction H; reflexivity. Qed.

Lemma contact_ext (a b : contact) :
  (forall f, get f a = get f b) -> a = b.
Proof.
  intros H. destruct a, b.
  pose proof (H Lastname). pose proof (H Firstname). pose proof (H Surname).
  pose proof (H Organization). pose proof (H Position). pose proof (H Phone).
  pose proof (H Email). simpl in *. congruence.
Qed.

Lemma get_default (f : field) : get f default_contact = [].
Proof. destruct f; reflexivity. Qed.

Lemma in_all_fields (f : field) : In f all_fields.
Proof. destruct f; simpl; tauto. Qed.

(** Replace the value of [k], or add [k] after the entries there are. *)
Fixpoint upsert (k : key) (a : contact) (d : dict) : dict :=
  match d with
  | [] => [(k, a)]
  | (k', a') :: d' =>
      if key_eqb k' k then (k', a) :: d' else (k', a') :: upsert k a d'
  end.

Definition put_opt (k : key) (o : option contact) (d : dict) : dict :=
  match o with
  | Some a => upsert k a d
  | None => d
  end.

Definition or_default (o : option contact) : contact :=
  match o with
  | Some a => a
  | None => default_contact
  end.

Definition keys (d : dict) : list key := map fst d.

Definition mem (k : key) (ks : list key) : bool := existsb (key_eqb k) ks.

Lemma mem_In (k : key) (ks : list key) : mem k ks = true <-> In k ks.
Proof.
  unfold mem. rewrite existsb_exists. split.
  - intros (x & Hx & E). apply key_eqb_eq in E. subst. exact Hx.
  - intros H. exists k. split; [exact H | apply key_eqb_refl].
Qed.

Lemma lookup_None (k : key) (d : dict) :
  lookup k d = None <-> ~ In k (keys d).
Proof.
  induction d as [|[k' a] d IH]; simpl.
  - tauto.
  - destruct (key_eqb k' k) eqn:E.
    + apply key_eqb_eq in E. split; [discriminate | tauto].
    + apply key_eqb_neq in E. rewrite IH. tauto.
Qed.

Lemma lookup_In (k : key) (a : contact) (d : dict) :
  lookup k d = Some a -> In (k, a) d.
Proof.
  induction d as [|[k' a'] d IH]; simpl; [discriminate|].
  destruct (key_eqb k' k) eqn:E.
  - apply key_eqb_eq in E. intros H. injection H as ->. subst. tauto.
  - auto.
Qed.

Lemma In_lookup (k : key) (a : contact) (d : dict) :
  NoDup (keys d) -> In (k, a) d -> lookup k d = Some a.
Proof.
  induction d as [|[k' a'] d IH]; simpl; [tauto|].
  intros Hnd Hin. inversion Hnd as [|? ? Hnotin Hnd']; subst.
  destruct Hin as [Heq | Hin].
  - injection Heq as -> ->. rewrite key_eqb_refl. reflexivity.
  - destruct (key_eqb k' k) eqn:E.
    + apply key_eqb_eq in E. subst. exfalso. apply Hnotin.
      apply (in_map fst) in Hin. exact Hin.
    + auto.
Qed.

Lemma upsert_present (k : key) (a a0 : contact) (d : dict) :
  lookup k d = Some a0 -> keys (upsert k a d) = keys d.
Proof.
  induction d as [|[k' a'] d IH]; simpl; [discriminate|].
  destruct (key_eqb k' k); simpl; [reflexivity|].
  intros H. rewrite (IH H). reflexivity.
Qed.

Lemma upsert_absent (k : key) (a : contact) (d : dict) :
  lookup k d = None -> upsert k a d = d ++ [(k, a)].
Proof.
  induction d as [|[k' a'] d IH]; simpl; [reflexivity|].
  destruct (key_eqb k' k); [discriminate|].
  intros H. rewrite (IH H). reflexivity.
Qed.

Lemma upsert_same (k : key) (a : contact) (d : dict) :
  lookup k d = Some a -> upsert k a d = d.
Proof.
  induction d as [|[k' a'] d IH]; simpl; [discriminate|].
  destruct (key_eqb k' k).
  - intros H. injection H as ->. reflexivity.
  - intros H. rewrite (IH H). reflexivity.
Qed.

Lemma upsert_upsert (k : key) (a a' : contact) (d : dict) :
  upsert k a' (upsert k a d) = upsert k a' d.
Proof.
  induction d as [|[k0 a0] d IH]; simpl.
  - rewrite key_eqb_refl. reflexivity.
  - destruct (key_eqb k0 k) eqn:E; simpl; rewrite E; [reflexivity|].
    rewrite IH. reflexivity.
Qed.

Lemma lookup_upsert (k k' : key) (a : contact) (d : dict) :
  lookup k' (upsert k a d) = if key_eqb k k' then Some a else lookup k' d.
Proof.
  induction d as [|[k0 a0] d IH]; simpl.
  - reflexivity.
  - destruct (key_eqb k0 k) eqn:E; simpl.
    + apply key_eqb_eq in E. subst.
      destruct (key_eqb k k'); reflexivity.
    + destruct (key_eqb k0 k') eqn:E'.
      * apply key_eqb_eq in E'. subst. rewrite key_eqb_sym, E. reflexivity.
      * exact IH.
Qed.

Lemma set_item_field_upsert (k : key) (f : field) (v : str) (a : contact)
  (d : dict) :
  lookup k d = Some a -> set_item_field k f v d = upsert k (set f v a) d.
Proof.
  induction d as [|[k' a'] d IH]; simpl; [discriminate|].
  destruct (key_eqb k' k).
  - intros H. injection H as ->. reflexivity.
  - intros H. rewrite (IH H). reflexivity.
Qed.

Lemma put_opt_lookup (k : key) (d : dict) : put_opt k (lookup k d) d = d.
Proof.
  destruct (lookup k d) as [a|] eqn:L; simpl; [|reflexivity].
  apply upsert_same. exact L.
Qed.

(** ** Merging: one field, then one contact *)

(** First non-empty wins, on the accumulated contact [a]. *)
Definition absorb_field (c a : contact) (f : field) : contact :=
  if truthy (get f c) && negb (truthy (get f a)) then set f (get f c) a
  else a.

Definition absorb (c a : contact) : contact :=
  fold_left (absorb_field c) all_fields a.

(** The effect of one field on the entry of the key, if there is one. *)
Definition entry_field (c : contact) (o : option contact) (f : field)
  : option contact :=
  if truthy (get f c) then Some (absorb_field c (or_default o) f) else o.

(** A contact with at least one non-empty entry. *)
Definition informative (c : contact) : bool :=
  existsb (fun f => truthy (get f c)) all_fields.

Lemma merge_field_entry (k : key) (c : contact) (d : dict) (f : field) :
  merge_field k c d f = put_opt k (entry_field c (lookup k d) f) d.
Proof.
  unfold merge_field, entry_field, absorb_field, dd_getitem.
  destruct (truthy (get f c)) eqn:Hc; [|symmetry; apply put_opt_lookup].
  cbn [andb put_opt].
  destruct (lookup k d) as [a|] eqn:L; cbn [or_default].
  - destruct (truthy (get f a)); cbn [negb].
    + symmetry. apply upsert_same. exact L.
    + rewrite L. apply set_item_field_upsert. exact L.
  - rewrite get_default. cbn [truthy negb].
    assert (L' : lookup k (d ++ [(k, default_contact)]) = Some default_contact).
    { rewrite <- (upsert_absent k default_contact d L), lookup_upsert.
      rewrite key_eqb_refl. reflexivity. }
    rewrite L'.
    rewrite (set_item_field_upsert k f (get f c) default_contact _ L').
    rewrite <- (upsert_absent k default_contact d L).
    apply upsert_upsert.
Qed.

Lemma entry_field_Some (c a : contact) (fs : list field) :
  exists a', fold_left (entry_field c) fs (Some a) = Some a'.
Proof.
  revert a. induction fs as [|f fs IH]; intros a; simpl; [eauto|].
  unfold entry_field at 2. destruct (truthy (get f c)); apply IH.
Qed.

Lemma merge_fields_entry (k : key) (c : contact) (fs : list field) (d : dict) :
  fold_left (merge_field k c) fs d
  = put_opt k (fold_left (entry_field c) fs (lookup k d)) d.
Proof.
  revert d. induction fs as [|f fs IH]; intros d; simpl.
  - symmetry. apply put_opt_lookup.
  - rewrite merge_field_entry, IH.
    destruct (entry_field c (lookup k d) f) as [a1|] eqn:E1; cbn [put_opt].
    + rewrite lookup_upsert, key_eqb_refl.
      destruct (entry_field_Some c a1 fs) as [a2 ->]. cbn [put_opt].
      apply upsert_upsert.
    + assert (L : lookup k d = None).
      { unfold entry_field in E1. destruct (truthy (get f c)); congruence. }
      rewrite L. reflexivity.
Qed.

Lemma absorb_field_empty (c a : contact) (f : field) :
  truthy (get f c) = false -> absorb_field c a f = a.
Proof. unfold absorb_field. intros ->. reflexivity. Qed.

Lemma absorb_fields_empty (c a : contact) (fs : list field) :
  existsb (fun f => truthy (get f c)) fs = false ->
  fold_left (absorb_field c) fs a = a.
Proof.
  induction fs as [|f fs IH]; simpl; [reflexivity|].
  intros H. apply orb_false_iff in H. destruct H as [Hf Hfs].
  rewrite (absorb_field_empty c a f Hf). apply IH. exact Hfs.
Qed.

Lemma entry_fields (c : contact) (fs : list field) (o : option contact) :
  fold_left (entry_field c) fs o =
    if existsb (fun f => truthy (get f c)) fs
    then Some (fold_left (absorb_field c) fs (or_default o))
    else o.
Proof.
  revert o. induction fs as [|f fs IH]; intros o; simpl; [reflexivity|].
  rewrite IH. unfold entry_field.
  destruct (truthy (get f c)) eqn:Hf; cbn [orb or_default].
  - destruct (existsb _ fs) eqn:Hfs; [reflexivity|].
    rewrite (absorb_fields_empty c _ fs Hfs). reflexivity.
  - rewrite (absorb_field_empty c _ f Hf). reflexivity.
Qed.

(** One pass of the loop body: a contact with some non-empty entry
    replaces or creates the entry of its key; a contact with none leaves
    [merged] as it is. *)
Lemma merge_one_upsert (d : dict) (c : contact) :
  merge_one d c =
    if informative c
    then upsert (key_of c) (absorb c (or_default (lookup (key_of c) d))) d
    else d.
Proof.
  change (merge_one d c)
    with (fold_left (merge_field (key_of c) c) all_fields d).
  rewrite merge_fields_entry, entry_fields.
  fold (informative c). destruct (informative c); cbn [put_opt].
  - reflexivity.
  - apply put_opt_lookup.
Qed.

Lemma truthy_false (s : str) : truthy s = false -> s = [].
Proof. destruct s; [reflexivity | discriminate]. Qed.

Lemma get_absorb_field_same (c a : contact) (f : field) :
  get f (absorb_field c a f)
  = if truthy (get f a) then get f a else get f c.
Proof.
  unfold absorb_field.
  destruct (truthy (get f c)) eqn:Hc, (truthy (get f a)) eqn:Ha;
    cbn [andb negb]; rewrite ?get_set_same; try reflexivity.
  rewrite (truthy_false _ Hc), (truthy_false _ Ha). reflexivity.
Qed.

Lemma get_absorb_field_other (c a : contact) (f g : field) :
  f <> g -> get f (absorb_field c a g) = get f a.
Proof.
  intros H. unfold absorb_field.
  destruct (truthy (get g c) && negb (truthy (get g a))); [|reflexivity].
  apply get_set_other. exact H.
Qed.

Lemma get_absorb_fields (c : contact) (f : field) (fs : list field)
  (a : contact) :
  get f (fold_left (absorb_field c) fs a)
  = if in_dec field_eq_dec f fs
    then (if truthy (get f a) then get f a else get f c)
    else get f a.
Proof.
  revert a. induction fs as [|g fs IH]; intros a; [reflexivity|].
  cbn [fold_left]. rewrite IH.
  destruct (field_eq_dec f g) as [<- | Hfg].
  - rewrite get_absorb_field_same.
    destruct (in_dec field_eq_dec f (f :: fs)) as [_ | Hn];
      [|contradiction Hn; left; reflexivity].
    destruct (in_dec field_eq_dec f fs); [|reflexivity].
    destruct (truthy (get f a)) eqn:Ha; [rewrite Ha; reflexivity|].
    destruct (truthy (get f c)); reflexivity.
  - rewrite (get_absorb_field_other c a f g Hfg).
    destruct (in_dec field_eq_dec f fs) as [Hin | Hn];
      destruct (in_dec field_eq_dec f (g :: fs)) as [Hin' | Hn'];
      try reflexivity.
    + contradiction Hn'. right. exact Hin.
    + destruct Hin' as [E | Hin']; [symmetry in E|]; contradiction.
Qed.

(** First non-empty wins, field by field. *)
Lemma get_absorb (c a : contact) (f : field) :
  get f (absorb c a) = if truthy (get f a) then get f a else get f c.
Proof.
  unfold absorb. rewrite get_absorb_fields.
  destruct (in_dec field_eq_dec f all_fields) as [_ | Hn]; [reflexivity|].
  contradiction Hn. apply in_all_fields.
Qed.

Lemma absorb_default (c : contact) : absorb c default_contact = c.
Proof.
  apply contact_ext. intros f. rewrite get_absorb, get_default. reflexivity.
Qed.

Lemma key_of_get (c : contact) : key_of c = (get Lastname c, get Firstname c).
Proof. reflexivity. Qed.

Lemma key_of_absorb (c : contact) (o : option contact) :
  (forall a, o = Some a -> key_of a = key_of c) ->
  key_of (absorb c (or_default o)) = key_of c.
Proof.
  intros H. rewrite !key_of_get, !get_absorb.
  destruct o as [a|]; cbn [or_default].
  - specialize (H a eq_refl). injection H as H1 H2.
    change (get Lastname a = get Lastname c) in H1.
    change (get Firstname a = get Firstname c) in H2.
    rewrite H1, H2.
    destruct (truthy (get Lastname c)), (truthy (get Firstname c)); reflexivity.
  - rewrite !get_default. reflexivity.
Qed.

Lemma informative_absorb (c a : contact) :
  informative c = true -> informative (absorb c a) = true.
Proof.
  unfold informative. rewrite !existsb_exists.
  intros (f & Hin & Hf). exists f. split; [exact Hin|].
  rewrite get_absorb. destruct (truthy (get f a)) eqn:Ha; assumption.
Qed.

Lemma informative_false (c : contact) (f : field) :
  informative c = false -> truthy (get f c) = false.
Proof.
  unfold informative. intros H.
  destruct (truthy (get f c)) eqn:Hf; [|reflexivity].
  rewrite <- H. symmetry. apply existsb_exists.
  exists f. split; [apply in_all_fields | exact Hf].
Qed.

(** ** Merging: the invariant of [merged] *)

(** Keys are distinct, every value carries its key in its name entries,
    and no value is all empty. *)
Record dict_ok (d : dict) : Prop := {
  ok_nodup : NoDup (keys d);
  ok_keyed : Forall (fun e => key_of (snd e) = fst e) d;
  ok_informative : Forall (fun e => informative (snd e) = true) d
}.

Lemma dict_ok_nil : dict_ok [].
Proof. split; constructor. Qed.

Lemma Forall_upsert (P : key * contact -> Prop) (k : key) (a : contact)
  (d : dict) :
  Forall P d -> P (k, a) -> Forall P (upsert k a d).
Proof.
  intros Hd Ha. induction Hd as [|[k' a'] d Hx Hd IH]; simpl.
  - constructor; [exact Ha | constructor].
  - destruct (key_eqb k' k) eqn:E.
    + apply key_eqb_eq in E. subst. constructor; assumption.
    + constructor; assumption.
Qed.

Lemma keys_upsert (k : key) (a : contact) (d : dict) :
  keys (upsert k a d) = if mem k (keys d) then keys d else keys d ++ [k].
Proof.
  destruct (lookup k d) as [a0|] eqn:L.
  - rewrite (upsert_present k a a0 d L).
    apply lookup_In in L. apply (in_map fst) in L. cbn [fst] in L.
    apply mem_In in L. fold (keys d) in L. rewrite L. reflexivity.
  - rewrite (upsert_absent k a d L). unfold keys at 1. rewrite map_app.
    apply lookup_None in L.
    destruct (mem k (keys d)) eqn:M; [|reflexivity].
    apply mem_In in M. contradiction.
Qed.

Lemma lookup_keyed (k : key) (a : contact) (d : dict) :
  Forall (fun e => key_of (snd e) = fst e) d ->
  lookup k d = Some a -> key_of a = k.
Proof.
  intros Hk L. apply lookup_In in L.
  rewrite Forall_forall in Hk. exact (Hk (k, a) L).
Qed.

Lemma merge_one_ok (d : dict) (c : contact) :
  dict_ok d -> dict_ok (merge_one d c).
Proof.
  intros [Hnd Hk Hi]. rewrite merge_one_upsert.
  destruct (informative c) eqn:Hc; [|split; assumption].
  split.
  - rewrite keys_upsert. destruct (mem (key_of c) (keys d)) eqn:M; [exact Hnd|].
    apply NoDup_app; [exact Hnd | repeat constructor; simpl; tauto |].
    intros x Hx [<- | []]. apply mem_In in Hx. congruence.
  - apply Forall_upsert; [exact Hk|]. cbn [fst snd].
    apply key_of_absorb. intros a L. exact (lookup_keyed _ _ d Hk L).
  - apply Forall_upsert; [exact Hi|]. cbn [snd].
    apply informative_absorb. exact Hc.
Qed.

Lemma merge_loop_ok (l : list contact) (d : dict) :
  dict_ok d -> dict_ok (merge_loop l d).
Proof.
  revert d. induction l as [|c l IH]; intros d Hd; [exact Hd|].
  apply IH, merge_one_ok, Hd.
Qed.

Lemma keyed_values (d : dict) :
  Forall (fun e => key_of (snd e) = fst e) d ->
  map key_of (map snd d) = keys d.
Proof.
  intros H. induction H as [|e d He Hd IH]; simpl; congruence.
Qed.

Lemma merge_contacts_keys (l : list contact) :
  map key_of (merge_contacts l) = keys (merge_loop l []).
Proof.
  apply keyed_values. apply (merge_loop_ok l [] dict_ok_nil).
Qed.

(** ** Merging: what the loop computes *)

(** The input contacts of key [k], in input order. *)
Definition group (k : key) (l : list contact) : list contact :=
  filter (fun c => key_eqb (key_of c) k) l.

(** The first non-empty value of field [f] in a list of contacts; empty when
    there is none. *)
Definition first_nonempty (f : field) (l : list contact) : str :=
  match find (fun c => truthy (get f c)) l with
  | Some c => get f c
  | None => []
  end.

(** The keys of a list, each at its first occurrence, those in [seen]
    left out. *)
Fixpoint first_occ_from (seen ks : list key) : list key :=
  match ks with
  | [] => []
  | k :: ks' =>
      if mem k seen then first_occ_from seen ks'
      else k :: first_occ_from (seen ++ [k]) ks'
  end.

Definition first_occurrences (ks : list key) : list key :=
  first_occ_from [] ks.

(** The entry of key [k] after the contacts [l], from the entry [o]. *)
Definition merged_value (k : key) (l : list contact) (o : option contact)
  : option contact :=
  fold_left
    (fun o c =>
       if key_eqb (key_of c) k && informative c
       then Some (absorb c (or_default o)) else o)
    l o.

Lemma lookup_merge_one (k : key) (d : dict) (c : contact) :
  lookup k (merge_one d c) =
    if key_eqb (key_of c) k && informative c
    then Some (absorb c (or_default (lookup k d)))
    else lookup k d.
Proof.
  rewrite merge_one_upsert.
  destruct (informative c); [|rewrite andb_false_r; reflexivity].
  rewrite lookup_upsert, andb_true_r.
  destruct (key_eqb (key_of c) k) eqn:E; [|reflexivity].
  apply key_eqb_eq in E. subst. reflexivity.
Qed.

Lemma lookup_merge_loop (k : key) (l : list contact) (d : dict) :
  lookup k (merge_loop l d) = merged_value k l (lookup k d).
Proof.
  revert d. induction l as [|c l IH]; intros d; [reflexivity|].
  cbn [merge_loop fold_left merged_value].
  fold (merge_loop l (merge_one d c)). rewrite IH, lookup_merge_one.
  reflexivity.
Qed.

Lemma first_nonempty_cons (f : field) (c : contact) (l : list contact) :
  first_nonempty f (c :: l)
  = if truthy (get f c) then get f c else first_nonempty f l.
Proof.
  unfold first_nonempty. simpl. destruct (truthy (get f c)); reflexivity.
Qed.

Lemma merged_value_field (k : key) (f : field) (l : list contact)
  (o : option contact) (a : contact) :
  merged_value k l o = Some a ->
  get f a = if truthy (get f (or_default o)) then get f (or_default o)
            else first_nonempty f (group k l).
Proof.
  revert o. induction l as [|c l IH]; intros o.
  - cbn. intros ->. cbn [or_default].
    destruct (truthy (get f a)) eqn:Ha; [reflexivity|].
    apply truthy_false. exact Ha.
  - cbn [merged_value fold_left group filter].
    destruct (key_eqb (key_of c) k) eqn:Ek; cbn [andb]; [|apply IH].
    fold (group k l). rewrite first_nonempty_cons.
    destruct (informative c) eqn:Hc.
    + intros H. rewrite (IH _ H). cbn [or_default]. rewrite get_absorb.
      destruct (truthy (get f (or_default o))) eqn:Ho.
      * rewrite Ho. reflexivity.
      * destruct (truthy (get f c)); reflexivity.
    + intros H. rewrite (IH _ H).
      rewrite (informative_false c f Hc). reflexivity.
Qed.

Lemma keys_merge_loop (l : list contact) (d : dict) :
  keys (merge_loop l d)
  = keys d ++ first_occ_from (keys d) (map key_of (filter informative l)).
Proof.
  revert d. induction l as [|c l IH]; intros d.
  - cbn. rewrite app_nil_r. reflexivity.
  - cbn [merge_loop fold_left filter]. fold (merge_loop l (merge_one d c)).
    rewrite IH, merge_one_upsert.
    destruct (informative c); [|reflexivity].
    cbn [map first_occ_from]. rewrite keys_upsert.
    destruct (mem (key_of c) (keys d)); [reflexivity|].
    rewrite <- app_assoc. reflexivity.
Qed.

Lemma first_occ_from_In (k : key) (ks seen : list key) :
  In k (first_occ_from seen ks) <-> In k ks /\ ~ In k seen.
Proof.
  revert seen. induction ks as [|k0 ks IH]; intros seen; simpl; [tauto|].
  destruct (mem k0 seen) eqn:M.
  - apply mem_In in M. rewrite IH. split; [tauto|].
    intros [[-> | H] Hn]; tauto.
  - assert (Hn0 : ~ In k0 seen).
    { intros H. apply mem_In in H. congruence. }
    simpl. rewrite IH, in_app_iff. simpl.
    destruct (key_eqb k0 k) eqn:E.
    + apply key_eqb_eq in E. subst. tauto.
    + apply key_eqb_neq in E. tauto.
Qed.

(** The merged contact of each key has, in every field, the first
    non-empty value of the contacts of that key. *)
Lemma merge_contacts_field (l : list contact) (m : contact) (f : field) :
  In m (merge_contacts l) ->
  get f m = first_nonempty f (group (key_of m) l).
Proof.
  intros Hin. unfold merge_contacts in Hin. apply in_map_iff in Hin.
  destruct Hin as ([k a] & E & Hin). cbn in E. subst a.
  destruct (merge_loop_ok l [] dict_ok_nil) as [Hnd Hk _].
  pose proof (In_lookup k m _ Hnd Hin) as L.
  rewrite (lookup_keyed k m _ Hk L).
  rewrite lookup_merge_loop in L. cbn [lookup] in L.
  rewrite (merged_value_field k f l None m L). cbn [or_default].
  rewrite get_default. reflexivity.
Qed.

(** The keys of the output are the keys of the contacts with some
    non-empty entry. *)
Lemma merge_contacts_key_In (l : list contact) (k : key) :
  In k (map key_of (merge_contacts l)) <->
  exists c, In c l /\ key_of c = k /\ informative c = true.
Proof.
  rewrite merge_contacts_keys, keys_merge_loop. cbn [keys map app].
  rewrite first_occ_from_In, in_map_iff. split.
  - intros [(c & E & Hc) _]. apply filter_In in Hc. exists c. tauto.
  - intros (c & Hc & E & Hi). split; [|tauto].
    exists c. split; [exact E|]. apply filter_In. tauto.
Qed.

Lemma merge_contacts_NoDup (l : list contact) :
  NoDup (map key_of (merge_contacts l)).
Proof.
  rewrite merge_contacts_keys. apply (merge_loop_ok l [] dict_ok_nil).
Qed.

Lemma merge_contacts_informative (l : list contact) :
  forallb informative (merge_contacts l) = true.
Proof.
  apply forallb_forall. intros m Hin.
  unfold merge_contacts in Hin. apply in_map_iff in Hin.
  destruct Hin as (e & <- & Hin).
  destruct (merge_loop_ok l [] dict_ok_nil) as [_ _ Hi].
  rewrite Forall_forall in Hi. exact (Hi e Hin).
Qed.

(** With distinct keys nothing is combined. *)
Lemma merge_loop_distinct (l : list contact) (d : dict) :
  NoDup (keys d ++ map key_of l) ->
  merge_loop l d
  = d ++ map (fun c => (key_of c, c)) (filter informative l).
Proof.
  revert d. induction l as [|c l IH]; intros d Hnd.
  - cbn. rewrite app_nil_r. reflexivity.
  - cbn [merge_loop fold_left filter]. fold (merge_loop l (merge_one d c)).
    assert (L : lookup (key_of c) d = None).
    { apply lookup_None. intros Hin.
      apply NoDup_remove_2 in Hnd. apply Hnd.
      apply in_or_app. left. exact Hin. }
    rewrite merge_one_upsert, L. cbn [or_default]. rewrite absorb_default.
    destruct (informative c).
    + rewrite (upsert_absent _ _ _ L). rewrite IH.
      * rewrite <- app_assoc. reflexivity.
      * unfold keys. rewrite map_app. cbn [map fst].
        rewrite <- app_assoc. exact Hnd.
    + apply IH. cbn [map] in Hnd.
      apply NoDup_remove_1 in Hnd. exact Hnd.
Qed.

Lemma merge_contacts_distinct (l : list contact) :
  NoDup (map key_of l) -> merge_contacts l = filter informative l.
Proof.
  intros Hnd. unfold merge_contacts.
  rewrite (merge_loop_distinct l [] Hnd). cbn [app].
  rewrite map_map. cbn [snd]. apply map_id.
Qed.

Lemma filter_all_true {A : Type} (p : A -> bool) (l : list A) :
  forallb p l = true -> filter p l = l.
Proof.
  induction l as [|x l IH]; simpl; [reflexivity|].
  intros H. apply andb_true_iff in H. destruct H as [-> H].
  rewrite (IH H). reflexivity.
Qed.

(** ** Merging: the claims *)

Lemma first_nonempty_app (f : field) (xs ys : list contact) (c : contact) :
  (forall x, In x xs -> truthy (get f x) = false) ->
  truthy (get f c) = true ->
  first_nonempty f (xs ++ c :: ys) = get f c.
Proof.
  intros Hxs Hc. induction xs as [|x xs IH]; cbn [app].
  - rewrite first_nonempty_cons, Hc. reflexivity.
  - rewrite first_nonempty_cons, (Hxs x (or_introl eq_refl)).
    apply IH. intros y Hy. apply Hxs. right. exact Hy.
Qed.

(** C5. In every field, a merged contact carries the first non-empty
    value of that field among the input contacts of its key, in input
    order; a later non-empty value is dropped.  So when [A] comes before
    [B] with the same key, both with a phone, and no contact of that key
    before [A] has one, the merged phone is the phone of [A]; with [A] and
    [B] alone, every merged contact has the phone of [A]. *)
Theorem merge_first_nonempty (l : list contact) :
  (forall m f,
     In m (merge_contacts l) ->
     get f m = first_nonempty f (group (key_of m) l))
  /\ (forall pre A mid B post,
        l = pre ++ A :: mid ++ B :: post ->
        key_of B = key_of A ->
        truthy (phone A) = true ->
        truthy (phone B) = true ->
        (forall c, In c pre -> key_of c = key_of A -> phone c = []) ->
        exists m,
          In m (merge_contacts l) /\ key_of m = key_of A
          /\ phone m = phone A)
  /\ (forall A B,
        l = [A; B] ->
        key_of B = key_of A ->
        truthy (phone A) = true ->
        truthy (phone B) = true ->
        exists m, merge_contacts l = [m] /\ phone m = phone A).
Proof.
  split; [|split].
  - intros m f Hin. apply merge_contacts_field. exact Hin.
  - intros pre A mid B post -> _ HA _ Hpre.
    assert (Hk : In (key_of A)
                   (map key_of (merge_contacts (pre ++ A :: mid ++ B :: post)))).
    { apply merge_contacts_key_In. exists A. repeat split.
      - apply in_or_app. right. left. reflexivity.
      - unfold informative. apply existsb_exists. exists Phone.
        split; [apply in_all_fields | exact HA]. }
    apply in_map_iff in Hk. destruct Hk as (m & Hm & Hin).
    exists m. repeat split; [exact Hin | exact Hm |].
    change (phone m) with (get Phone m).
    rewrite (merge_contacts_field _ m Phone Hin), Hm.
    unfold group. rewrite filter_app. cbn [filter].
    rewrite key_eqb_refl.
    apply (first_nonempty_app Phone); [|exact HA].
    intros x Hx. apply filter_In in Hx. destruct Hx as [Hx Ex].
    apply key_eqb_eq in Ex. cbn [get]. rewrite (Hpre x Hx Ex). reflexivity.
  - intros A B -> HB HA HBp.
    assert (HiA : informative A = true).
    { unfold informative. apply existsb_exists. exists Phone.
      split; [apply in_all_fields | exact HA]. }
    assert (HiB : informative B = true).
    { unfold informative. apply existsb_exists. exists Phone.
      split; [apply in_all_fields | exact HBp]. }
    unfold merge_contacts, merge_loop. cbn [fold_left].
    rewrite (merge_one_upsert [] A), HiA. cbn [lookup or_default upsert].
    rewrite merge_one_upsert, HiB, HB. cbn [lookup upsert].
    rewrite key_eqb_refl. cbn [or_default map snd].
    eexists. split; [reflexivity|].
    change (phone (absorb B (absorb A default_contact)))
      with (get Phone (absorb B (absorb A default_contact))).
    rewrite absorb_default, get_absorb. cbn [get]. rewrite HA. reflexivity.
Qed.

Lemma merge_first_nonempty_witness :
  exists m,
    merge_contacts [ivanov_111; ivanov_222] = [m]
    /\ phone m = phone ivanov_111.
Proof.
  apply (proj2 (proj2 (merge_first_nonempty [ivanov_111; ivanov_222]))
           ivanov_111 ivanov_222);
    reflexivity.
Defined.

Definition key_eq_dec (a b : key) : {a = b} + {a <> b}.
Proof. repeat decide equality. Defined.

(** C6, as it holds.  The output has no two contacts with the same
    (lastname, firstname) pair; its pairs are exactly the pairs of the input
    contacts that have at least one non-empty entry, so there are as many
    output contacts as distinct such pairs; contacts without a name fall
    into the one group of the pair of empty strings.  A contact whose
    seven entries are all empty makes no group. *)
Theorem merge_one_per_key (l : list contact) :
  NoDup (map key_of (merge_contacts l))
  /\ (forall k,
        In k (map key_of (merge_contacts l)) <->
        exists c, In c l /\ key_of c = k /\ informative c = true)
  /\ length (merge_contacts l)
     = length (nodup key_eq_dec (map key_of (filter informative l)))
  /\ length (group ([], []) (merge_contacts l)) <= 1.
Proof.
  split; [apply merge_contacts_NoDup|].
  split; [apply merge_contacts_key_In|].
  split.
  - rewrite <- (length_map key_of (merge_contacts l)).
    apply Permutation_length.
    apply NoDup_Permutation;
      [apply merge_contacts_NoDup | apply NoDup_nodup |].
    intros k. rewrite merge_contacts_key_In, nodup_In, in_map_iff.
    split.
    + intros (c & Hc & E & Hi). exists c. split; [exact E|].
      apply filter_In. tauto.
    + intros (c & E & Hc). apply filter_In in Hc. exists c. tauto.
  - pose proof (merge_contacts_NoDup l) as Hnd.
    induction (merge_contacts l) as [|m ms IH]; cbn [group filter length];
      [lia|].
    cbn [map] in Hnd. inversion Hnd as [|? ? Hnotin Hnd']; subst.
    specialize (IH Hnd'). fold (group ([], []) ms) in *.
    destruct (key_eqb (key_of m) ([], [])) eqn:E; [|exact IH].
    apply key_eqb_eq in E.
    destruct (group ([], []) ms) as [|m' g] eqn:G; [cbn; lia|].
    exfalso. apply Hnotin. rewrite E.
    assert (Hin : In m' (group ([], []) ms)) by (rewrite G; left; reflexivity).
    apply filter_In in Hin. destruct Hin as [Hin E'].
    apply key_eqb_eq in E'. rewrite <- E'. apply in_map. exact Hin.
Qed.

(** C6 as the spec has it fails: the pair of empty strings is observed in
    the input, and the output has no contact for it. *)
Lemma merge_one_per_key_counterexample :
  In ([], []) (map key_of [default_contact])
  /\ merge_contacts [default_contact] = [].
Proof. split; [left; reflexivity | reflexivity]. Qed.

(** C7, as it holds.  Merging its own output changes nothing; and a
    sequence with pairwise distinct keys comes back in input order with
    the contacts whose seven entries are all empty removed, so it comes back
    as it is when it has no such contact. *)
Theorem merge_idempotent (l : list contact) :
  merge_contacts (merge_contacts l) = merge_contacts l
  /\ (NoDup (map key_of l) -> merge_contacts l = filter informative l)
  /\ (NoDup (map key_of l) -> forallb informative l = true ->
      merge_contacts l = l).
Proof.
  split; [|split].
  - rewrite (merge_contacts_distinct _ (merge_contacts_NoDup l)).
    apply filter_all_true, merge_contacts_informative.
  - apply merge_contacts_distinct.
  - intros Hnd Hi. rewrite (merge_contacts_distinct l Hnd).
    apply filter_all_true. exact Hi.
Qed.

Lemma merge_idempotent_witness :
  merge_contacts
    [ ivanov_111; petrov ]
  = [ ivanov_111; petrov ].
Proof.
  apply (proj2 (proj2 (merge_idempotent
           [ ivanov_111;
             petrov ]))).
  - repeat constructor; simpl; intuition discriminate.
  - reflexivity.
Defined.

(** C7 as the spec has it fails: one contact with seven empty entries is
    a sequence with distinct keys, and merging it gives nothing. *)
Lemma merge_idempotent_counterexample :
  NoDup (map key_of [default_contact])
  /\ ~ (forall c, In c (merge_contacts [default_contact])
                  <-> In c [default_contact]).
Proof.
  split.
  - repeat constructor. simpl. tauto.
  - intros H. destruct (proj2 (H default_contact) (or_introl eq_refl)).
Qed.

(** C10, as it holds.  The output lists the groups in the order in which
    their keys first occur among the input contacts that have at least one
    non-empty entry. *)
Theorem merge_order (l : list contact) :
  map key_of (merge_contacts l)
  = first_occurrences (map key_of (filter informative l)).
Proof.
  rewrite merge_contacts_keys, keys_merge_loop. reflexivity.
Qed.

(** C10 as stated fails: the pair of empty strings first occurs in an
    all-empty contact, which makes no group; its group is made later. *)
Lemma merge_order_counterexample :
  map key_of
    (merge_contacts
       [ default_contact;
         ivanov_bare;
         firm_only ])
  = [ (py_str "Иванов", py_str "Иван"); ([], []) ]
  /\ first_occurrences
       (map key_of
          [ default_contact;
            ivanov_bare;
            firm_only ])
     = [ ([], []); (py_str "Иванов", py_str "Иван") ].
Proof. split; vm_compute; reflexivity. Qed.

(** ** The record loop *)

(** The full name the spec describes: the non-empty name entries, in the
    order last name, first name, patronymic, joined by single spaces. *)
Definition full_name (c : contact) : str :=
  join [c_space] (filter truthy [lastname c; firstname c; surname c]).

(** What the spec asks of a processed contact [p] made from a raw [r]. *)
Definition processed_from (r p : contact) : Prop :=
  parse_fio (full_name r) = Ok (lastname p, firstname p, surname p)
  /\ process_phone_with_extension (phone r) = Ok (phone p)
  /\ organization p = organization r
  /\ position p = position r
  /\ email p = email r.

Lemma process_record_spec (r : contact) :
  exists p, process_record r = Ok p /\ processed_from r p.
Proof.
  unfold process_record, processed_from.
  assert (Hname :
    join [c_space]
      ((if truthy (surname r)
        then (if truthy (firstname r)
              then (if truthy (lastname r) then [] ++ [lastname r] else [])
                     ++ [firstname r]
              else (if truthy (lastname r) then [] ++ [lastname r] else []))
               ++ [surname r]
        else (if truthy (firstname r)
              then (if truthy (lastname r) then [] ++ [lastname r] else [])
                     ++ [firstname r]
              else (if truthy (lastname r) then [] ++ [lastname r] else [])))
       ) = full_name r).
  { unfold full_name. cbn [filter].
    destruct (truthy (lastname r)), (truthy (firstname r)),
      (truthy (surname r)); reflexivity. }
  cbv zeta. rewrite Hname.
  destruct (parse_fio_total (full_name r)) as (l & f & s & ->).
  destruct (with_extension_total (phone r)) as (p & ->).
  cbn [bind]. eexists. split; [reflexivity|]. cbn. tauto.
Qed.

Lemma process_loop_spec (raw acc : list contact) :
  exists processed,
    process_loop raw acc = Ok (acc ++ processed)
    /\ Forall2 processed_from raw processed.
Proof.
  revert acc. induction raw as [|r raw IH]; intros acc.
  - exists []. cbn. rewrite app_nil_r. split; [reflexivity | constructor].
  - destruct (process_record_spec r) as (p & Hp & Hfrom).
    destruct (IH (acc ++ [p])) as (ps & Hps & Hall).
    exists (p :: ps). cbn [process_loop]. rewrite Hp. cbn [bind].
    rewrite Hps, <- app_assoc. split; [reflexivity|].
    constructor; assumption.
Qed.


(** * Further properties of the code *)

(** ** Character facts *)

Lemma is_space_cases (c : char) :
  is_space c = true ->
  In c [9; 10; 11; 12; 13; 28; 29; 30; 31; 32; 133; 160; 5760; 8192; 8193;
        8194; 8195; 8196; 8197; 8198; 8199; 8200; 8201; 8202; 8232; 8233;
        8239; 8287; 12288]%N.
Proof.
  unfold is_space, space_runs, in_run. cbn [existsb fst snd In].
  rewrite !orb_true_iff, !andb_true_iff, !N.leb_le, !N.ltb_lt. lia.
Qed.

(** No decimal digit is white space. *)
Lemma digit_not_space (c : char) : is_digit c = true -> is_space c = false.
Proof.
  intros Hd. destruct (is_space c) eqn:Hs; [|reflexivity].
  apply is_space_cases in Hs. cbn [In] in Hs.
  repeat (destruct Hs as [<- | Hs]; [discriminate Hd|]).
  contradiction.
Qed.

Lemma ci_de_cases (c : char) :
  ci_de c = true -> c = 1076%N \/ c = 1044%N \/ c = 7297%N.
Proof.
  unfold ci_de, char_eqb. rewrite !orb_true_iff, !N.eqb_eq. tauto.
Qed.

(** No decimal digit starts the marker. *)
Lemma digit_not_de (c : char) : is_digit c = true -> ci_de c = false.
Proof.
  intros Hd. destruct (ci_de c) eqn:E; [|reflexivity].
  apply ci_de_cases in E. destruct E as [-> | [-> | ->]]; discriminate Hd.
Qed.

(** ** More on [process_phone] *)

Lemma filter_formatted (a b c e f g h i j k : char) :
  forallb is_digit [a; b; c; e; f; g; h; i; j; k] = true ->
  filter is_digit (formatted a b c e f g h i j k)
  = [c_7; a; b; c; e; f; g; h; i; j; k].
Proof.
  intros H. cbn [forallb] in H.
  repeat (apply andb_true_iff in H; destruct H as [? H]).
  unfold formatted, lit_plus7_open, lit_close, lit_dash. cbn [app filter].
  repeat match goal with Hd : is_digit _ = true |- _ => rewrite Hd; clear Hd end.
  reflexivity.
Qed.

Lemma cleaned_formatted (a b c e f g h i j k : char) :
  forallb is_digit [a; b; c; e; f; g; h; i; j; k] = true ->
  cleaned_digits (formatted a b c e f g h i j k)
  = [c_7; a; b; c; e; f; g; h; i; j; k].
Proof.
  intros H. unfold cleaned_digits. rewrite (filter_formatted _ _ _ _ _ _ _ _ _ _ H).
  reflexivity.
Qed.

(** A formatted number is its own normal form. *)
Lemma process_phone_formatted (a b c e f g h i j k : char) :
  forallb is_digit [a; b; c; e; f; g; h; i; j; k] = true ->
  process_phone (formatted a b c e f g h i j k)
  = formatted a b c e f g h i j k.
Proof.
  intros H. rewrite process_phone_cases, (cleaned_formatted _ _ _ _ _ _ _ _ _ _ H).
  reflexivity.
Qed.

(** The two ways [process_phone] can go, with the digits at hand. *)
Lemma process_phone_inv (s : str) :
  process_phone s = s
  \/ exists a b c e f g h i j k,
       cleaned_digits s = [c_7; a; b; c; e; f; g; h; i; j; k]
       /\ forallb is_digit [a; b; c; e; f; g; h; i; j; k] = true
       /\ process_phone s = formatted a b c e f g h i j k.
Proof.
  rewrite (process_phone_cases s).
  destruct (cleaned_digits s)
    as [|x [|a [|b [|c [|e [|f [|g [|h [|i [|j [|k [|z d']]]]]]]]]]]] eqn:E;
    try (left; reflexivity).
  destruct (char_eqb x c_7) eqn:Ex; [right | left; reflexivity].
  apply char_eqb_eq in Ex. subst x.
  exists a, b, c, e, f, g, h, i, j, k. repeat split.
  exact (cleaned_digits_tail s _ _ E).
Qed.

(** X1. Normalising twice is normalising once: a number that was
    formatted stays as it is, and a string that was passed through is passed
    through again. *)
Theorem process_phone_idempotent (s : str) :
  process_phone (process_phone s) = process_phone s.
Proof.
  destruct (process_phone_inv s)
    as [Hs | (a & b & c & e & f & g & h & i & j & k & _ & Hd & Hs)].
  - rewrite Hs. exact Hs.
  - rewrite Hs. apply process_phone_formatted. exact Hd.
Qed.

Lemma tl_cleaned_digits (s : str) :
  tl (cleaned_digits s) = tl (strip_non_digits s).
Proof.
  unfold cleaned_digits, strip_non_digits.
  destruct (startswith c_8 (filter is_digit s)); reflexivity.
Qed.

(** X2. Normalisation keeps the digits: the result has the digits of the
    input in the same order, except that a leading 8 may have become 7. *)
Theorem process_phone_keeps_digits (s : str) :
  tl (strip_non_digits (process_phone s)) = tl (strip_non_digits s)
  /\ (strip_non_digits (process_phone s) = strip_non_digits s
      \/ strip_non_digits (process_phone s) = cleaned_digits s).
Proof.
  destruct (process_phone_inv s)
    as [Hs | (a & b & c & e & f & g & h & i & j & k & Hc & Hd & Hs)].
  - rewrite Hs. split; [reflexivity | left; reflexivity].
  - assert (Hf : strip_non_digits (formatted a b c e f g h i j k)
                 = cleaned_digits s).
    { unfold strip_non_digits.
      rewrite (filter_formatted _ _ _ _ _ _ _ _ _ _ Hd). symmetry. exact Hc. }
    rewrite Hs, Hf.
    split; [apply tl_cleaned_digits | right; reflexivity].
Qed.

(** ** More on [process_phone_with_extension] *)

Lemma process_phone_nil (s : str) : process_phone s = [] -> s = [].
Proof.
  intros H. destruct (process_phone_shape s) as [Hs | Hc].
  - rewrite <- Hs. exact H.
  - rewrite H in Hc. discriminate Hc.
Qed.

(** X3. When a phone is erased.  [process_phone] gives the empty string
    only for the empty string.  [process_phone_with_extension] gives it for
    the empty string and for a string that begins with the marker and has
    no digit between that marker and the next one (or the end); for no
    other string. *)
Theorem phone_erased (s : str) :
  (process_phone s = [] <-> s = [])
  /\ (process_phone_with_extension s = Ok [] <->
      s = []
      \/ exists after,
           contains lit_marker (lower s) = true
           /\ re_search s = Some ([], after)
           /\ strip_non_digits (upto_marker after) = []).
Proof.
  split.
  - split; [apply process_phone_nil | intros ->; reflexivity].
  - split.
    + intros H. destruct s as [|c0 s0]; [left; reflexivity | right].
      set (s := c0 :: s0) in *.
      destruct (contains lit_marker (lower s)) eqn:Hmark.
      * destruct (marker_found s Hmark) as (main & after & Hsearch).
        rewrite (with_extension_marker s main after eq_refl Hmark Hsearch) in H.
        cbv zeta in H. injection H as H.
        destruct (strip_non_digits (upto_marker after)) as [|d ds] eqn:Hext;
          cbn [truthy] in H.
        -- apply process_phone_nil in H. subst main.
           exists after. auto.
        -- apply app_eq_nil in H. destruct H as [_ H]. discriminate H.
      * rewrite (with_extension_plain s Hmark) in H. injection H as H.
        apply process_phone_nil in H. discriminate H.
    + intros [-> | (after & Hmark & Hsearch & Hext)]; [reflexivity|].
      assert (Hs : truthy s = true).
      { destruct s; [discriminate Hmark | reflexivity]. }
      rewrite (with_extension_marker s [] after Hs Hmark Hsearch), Hext.
      reflexivity.
Qed.

Ltac eval_pattern_head :=
  match goal with
  | H : context [char_eqb ?p c_X] |- _ =>
      let v := eval vm_compute in (char_eqb p c_X) in
      change (char_eqb p c_X) with v in H
  end.

(** A string that matches the canonical pattern is a formatted number. *)
Lemma canonical_formatted (m : str) :
  is_canonical m = true ->
  exists a b c e f g h i j k,
    m = formatted a b c e f g h i j k
    /\ forallb is_digit [a; b; c; e; f; g; h; i; j; k] = true.
Proof.
  unfold is_canonical, pattern_canonical. intros H.
  destruct m as [|x1 [|x2 [|x3 [|a [|b [|c [|x4 [|e [|f [|g [|x5 [|h [|i
    [|x6 [|j [|k [|z m]]]]]]]]]]]]]]]]]; cbn [matches_pattern] in H;
    rewrite ?andb_false_r in H; try discriminate H.
  repeat eval_pattern_head. cbv iota in H.
  rewrite andb_true_r, !andb_true_iff, !char_eqb_eq in H.
  destruct H as (<- & <- & <- & Ha & Hb & Hc & <- & He & Hf & Hg & <- & Hh
                 & Hi & <- & Hj & Hk).
  exists a, b, c, e, f, g, h, i, j, k. split; [reflexivity|].
  cbn [forallb]. rewrite Ha, Hb, Hc, He, Hf, Hg, Hh, Hi, Hj, Hk. reflexivity.
Qed.

Lemma formatted_no_de (a b c e f g h i j k : char) :
  forallb is_digit [a; b; c; e; f; g; h; i; j; k] = true ->
  Forall (fun x => ci_de x = false) (formatted a b c e f g h i j k).
Proof.
  intros H. cbn [forallb] in H.
  repeat (apply andb_true_iff in H; destruct H as [? H]).
  unfold formatted, lit_plus7_open, lit_close, lit_dash. cbn [app].
  repeat constructor; try reflexivity; apply digit_not_de; assumption.
Qed.

(** Text without a letter that can start the marker is skipped by the
    search. *)
Lemma re_search_skip (pre s : str) :
  Forall (fun x => ci_de x = false) pre ->
  re_search (pre ++ s)
  = match re_search s with
    | Some (before, after) => Some (pre ++ before, after)
    | None => None
    end.
Proof.
  intros H. induction H as [|x pre Hx Hpre IH]; cbn [app].
  - destruct (re_search s) as [[b a]|]; reflexivity.
  - cbn [re_search].
    assert (Hm : match_marker (x :: pre ++ s) = None).
    { cbn [match_marker]. destruct (pre ++ s) as [|y [|z t]]; try reflexivity.
      rewrite Hx. reflexivity. }
    rewrite Hm, IH. destruct (re_search s) as [[b a]|]; reflexivity.
Qed.

Lemma no_de_no_marker (s : str) :
  Forall (fun x => ci_de x = false) s ->
  contains lit_marker (lower s) = false.
Proof.
  intros H. destruct (contains lit_marker (lower s)) eqn:E; [|reflexivity].
  apply marker_test_spec in E.
  destruct E as (pre & c1 & c2 & c3 & post & -> & H1 & _).
  apply Forall_app in H. destruct H as [_ H]. inversion H as [|? ? Hc1 _].
  subst. destruct H1 as [-> | ->]; discriminate Hc1.
Qed.

Lemma is_prefix_split (p s : str) :
  is_prefix p s = true -> s = p ++ skipn (length p) s.
Proof.
  revert s. induction p as [|x p IH]; intros s; [reflexivity|].
  destruct s as [|y s]; cbn [is_prefix]; [discriminate|].
  intros H. apply andb_true_iff in H. destruct H as [E H].
  apply char_eqb_eq in E. subst y. cbn [length skipn app].
  f_equal. apply IH. exact H.
Qed.

Lemma digits_no_de (digits : str) :
  forallb is_digit digits = true ->
  Forall (fun x => ci_de x = false) digits.
Proof.
  intros H. apply Forall_forall. intros x Hx. apply digit_not_de.
  rewrite forallb_forall in H. apply H. exact Hx.
Qed.

(** X4. Canonical output is a fixed point: a canonical number, alone or
    followed by [ доб.] and one or more digits, comes back unchanged. *)
Theorem with_extension_canonical_fixed (r : str) :
  is_canonical_ext r = true ->
  process_phone_with_extension r = Ok r.
Proof.
  unfold is_canonical_ext. intros H.
  apply andb_true_iff in H. destruct H as [Hm Hx].
  destruct (canonical_formatted _ Hm)
    as (a & b & c & e & f & g & h & i & j & k & Em & Hd).
  pose proof (firstn_skipn 16 r) as Er. rewrite Em in Er.
  pose proof (formatted_no_de _ _ _ _ _ _ _ _ _ _ Hd) as Hno.
  destruct (skipn 16 r) as [|x0 x] eqn:Ex.
  - rewrite app_nil_r in Er. subst r.
    rewrite (with_extension_plain _ (no_de_no_marker _ Hno)).
    f_equal. apply process_phone_formatted. exact Hd.
  - apply andb_true_iff in Hx. destruct Hx as [Hx Hdig].
    apply andb_true_iff in Hx. destruct Hx as [Hpre Hne].
    apply is_prefix_split in Hpre. change (length lit_ext) with 5 in Hpre.
    set (digits := skipn 5 (x0 :: x)) in *.
    rewrite Hpre in Er. clear Hpre Ex. subst r.
    set (m := formatted a b c e f g h i j k) in *.
    assert (Hsearch :
      re_search (m ++ lit_ext ++ digits) = Some (m ++ [c_space], digits)).
    { change (m ++ lit_ext ++ digits)
        with (m ++ [c_space] ++ [c_de; c_o; c_be; c_dot] ++ digits).
      rewrite app_assoc, re_search_skip.
      - destruct digits as [|d ds]; [discriminate Hne|].
        cbn [forallb] in Hdig. apply andb_true_iff in Hdig.
        destruct Hdig as [Hd0 _].
        cbn [app re_search match_marker]. cbn [ci_de ci_o ci_be andb].
        change (ci_de c_de && ci_o c_o && ci_be c_be) with true. cbv iota.
        change (startswith c_dot (c_dot :: d :: ds)) with true. cbv iota.
        cbn [skipn drop_while]. rewrite (digit_not_space d Hd0).
        rewrite app_nil_r. reflexivity.
      - apply Forall_app. split; [exact Hno | repeat constructor]. }
    assert (Hmark : contains lit_marker (lower (m ++ lit_ext ++ digits)) = true).
    { apply marker_test_spec.
      exists (m ++ [c_space]), c_de, c_o, c_be, (c_dot :: digits).
      split; [rewrite <- app_assoc; reflexivity | auto]. }
    assert (Hs : truthy (m ++ lit_ext ++ digits) = true) by reflexivity.
    rewrite (with_extension_marker _ _ _ Hs Hmark Hsearch). cbv zeta.
    assert (Hup : upto_marker digits = digits).
    { unfold upto_marker. rewrite <- (app_nil_r digits) at 1.
      rewrite (re_search_skip digits [] (digits_no_de _ Hdig)). reflexivity. }
    rewrite Hup. unfold strip_non_digits at 1 2.
    rewrite (filter_all_true is_digit digits Hdig), Hne.
    f_equal. f_equal.
    rewrite process_phone_cases.
    assert (Hc : cleaned_digits (m ++ [c_space])
                 = [c_7; a; b; c; e; f; g; h; i; j; k]).
    { unfold cleaned_digits. rewrite filter_app.
      unfold m. rewrite (filter_formatted _ _ _ _ _ _ _ _ _ _ Hd).
      reflexivity. }
    rewrite Hc. reflexivity.
Qed.

Lemma with_extension_canonical_fixed_witness :
  process_phone_with_extension (py_str "+7(916)123-45-67 доб.123")
  = Ok (py_str "+7(916)123-45-67 доб.123").
Proof.
  apply with_extension_canonical_fixed. vm_compute. reflexivity.
Defined.

(** ** More on [parse_fio] *)

Lemma parse_fio_tokens (s : str) :
  parse_fio s =
    Ok (match tokens s with
        | [] => ([], [], [])
        | [a] => (a, [], [])
        | [a; b] => (a, b, [])
        | a :: b :: c :: _ => (a, b, c)
        end).
Proof.
  unfold parse_fio, tokens.
  destruct (filter truthy (split_on c_space (strip s))) as [|a [|b [|c l]]];
    reflexivity.
Qed.

Lemma drop_while_all (p : char -> bool) (a s : str) :
  forallb p a = true -> drop_while p (a ++ s) = drop_while p s.
Proof.
  induction a as [|c a IH]; cbn [app forallb drop_while]; [reflexivity|].
  intros H. apply andb_true_iff in H. destruct H as [-> H]. apply IH, H.
Qed.

Lemma drop_while_nil (p : char -> bool) (s : str) :
  drop_while p s = [] <-> forallb p s = true.
Proof.
  induction s as [|c s IH]; cbn [drop_while forallb]; [tauto|].
  destruct (p c); cbn [andb]; [exact IH | split; discriminate].
Qed.

Lemma drop_while_app (p : char -> bool) (s b : str) :
  drop_while p s <> [] -> drop_while p (s ++ b) = drop_while p s ++ b.
Proof.
  induction s as [|c s IH]; cbn [app drop_while]; [contradiction|].
  destruct (p c); [exact IH | reflexivity].
Qed.

Lemma forallb_rev (p : char -> bool) (s : str) :
  forallb p s = true -> forallb p (rev s) = true.
Proof.
  rewrite !forallb_forall. intros H x Hx. apply H, in_rev, Hx.
Qed.

(** White space around a string does not change what [strip] gives. *)
Lemma strip_pad (a s b : str) :
  forallb is_space a = true -> forallb is_space b = true ->
  strip (a ++ s ++ b) = strip s.
Proof.
  intros Ha Hb. unfold strip. rewrite (drop_while_all is_space a _ Ha).
  destruct (drop_while is_space s) as [|c t] eqn:E.
  - apply drop_while_nil in E. rewrite (drop_while_all is_space s b E).
    apply drop_while_nil in Hb. rewrite Hb. reflexivity.
  - rewrite drop_while_app by (rewrite E; discriminate).
    rewrite E, rev_app_distr.
    rewrite (drop_while_all is_space (rev b) _ (forallb_rev _ _ Hb)).
    reflexivity.
Qed.

Lemma strip_all_space (s : str) : forallb is_space s = true -> strip s = [].
Proof.
  intros H. rewrite <- (app_nil_r s).
  change (s ++ []) with (s ++ [] ++ []).
  rewrite (strip_pad s [] [] H eq_refl). reflexivity.
Qed.

Lemma split_on_head (sep c : char) (t : str) :
  char_eqb c sep = false ->
  exists p ps, split_on sep (c :: t) = (c :: p) :: ps.
Proof.
  intros H. cbn [split_on]. rewrite H.
  destruct (split_on sep t) as [|p ps]; eauto.
Qed.

Lemma not_space_neq (c : char) : is_space c = false -> char_eqb c c_space = false.
Proof.
  intros H. destruct (char_eqb c c_space) eqn:E; [|reflexivity].
  apply char_eqb_eq in E. subst c. discriminate H.
Qed.

(** The first token starts where the trimmed string starts. *)
Lemma tokens_strip_head (s : str) (c : char) (t : str) :
  strip s = c :: t ->
  exists p rest, tokens s = (c :: p) :: rest /\ is_space c = false.
Proof.
  intros E. destruct (strip_spec s) as (l & r & _ & _ & _ & Hhd & _).
  pose proof (Hhd c t E) as Hc.
  destruct (split_on_head c_space c t (not_space_neq c Hc)) as (p & ps & Hsp).
  unfold tokens. rewrite E, Hsp. cbn [filter truthy]. eauto.
Qed.

Lemma tokens_nil (s : str) : tokens s = [] -> strip s = [].
Proof.
  intros H. destruct (strip s) as [|c t] eqn:E; [reflexivity|].
  destruct (tokens_strip_head s c t E) as (p & rest & Ht & _).
  rewrite Ht in H. discriminate H.
Qed.

(** X5. [parse_fio] gives three empty strings exactly for the strings made
    of white space only (the empty string among them). *)
Theorem parse_fio_blank (s : str) :
  parse_fio s = Ok ([], [], []) <-> forallb is_space s = true.
Proof.
  split.
  - intros H. rewrite parse_fio_tokens in H.
    assert (Ht : tokens s = []).
    { pose proof (tokens_spec s) as Hw.
      destruct (tokens s) as [|a l]; [reflexivity|].
      inversion Hw as [|? ? [Ha _] _]; subst.
      destruct l as [|b [|c l]]; inversion H; subst; congruence. }
    apply tokens_nil in Ht.
    destruct (strip_spec s) as (l & r & Es & Hl & Hr & _).
    rewrite Ht in Es. rewrite Es, !forallb_app, Hl, Hr. reflexivity.
  - intros H. unfold parse_fio. rewrite (strip_all_space s H). reflexivity.
Qed.

(** X6. White space before and after a name is ignored. *)
Theorem parse_fio_padding (a s b : str) :
  forallb is_space a = true -> forallb is_space b = true ->
  parse_fio (a ++ s ++ b) = parse_fio s.
Proof.
  intros Ha Hb. unfold parse_fio. rewrite (strip_pad a s b Ha Hb).
  reflexivity.
Qed.

Lemma parse_fio_padding_witness :
  parse_fio (py_str "  " ++ py_str "Иванов Иван" ++ [9; 10]%N)
  = parse_fio (py_str "Иванов Иван").
Proof.
  apply parse_fio_padding; vm_compute; reflexivity.
Defined.

Lemma parse_fio_parts_ex (s : str) :
  exists l f p,
    parse_fio s = Ok (l, f, p)
    /\ ~ In c_space l /\ ~ In c_space f /\ ~ In c_space p
    /\ (forall c t, l = c :: t -> is_space c = false)
    /\ (f <> [] -> l <> []) /\ (p <> [] -> f <> []).
Proof.
  rewrite parse_fio_tokens. pose proof (tokens_spec s) as Hw.
  assert (Hfirst : forall c t rest,
            tokens s = (c :: t) :: rest -> is_space c = false).
  { intros c t rest Ht. destruct (strip s) as [|c0 t0] eqn:E.
    - unfold tokens in Ht. rewrite E in Ht. discriminate Ht.
    - destruct (tokens_strip_head s c0 t0 E) as (p & r & Ht' & Hc).
      rewrite Ht in Ht'. injection Ht' as -> _ _. exact Hc. }
  destruct (tokens s) as [|a [|b [|c l]]].
  - exists [], [], []. repeat split; auto; discriminate.
  - inversion Hw as [|? ? [Ha Hsa] _]; subst.
    exists a, [], []. repeat split; auto; try discriminate.
    intros c t ->. exact (Hfirst c t [] eq_refl).
  - inversion Hw as [|? ? [Ha Hsa] Hw']; subst.
    inversion Hw' as [|? ? [Hb Hsb] _]; subst.
    exists a, b, []. repeat split; auto; try discriminate.
    intros c t ->. exact (Hfirst c t _ eq_refl).
  - inversion Hw as [|? ? [Ha Hsa] Hw']; subst.
    inversion Hw' as [|? ? [Hb Hsb] Hw'']; subst.
    inversion Hw'' as [|? ? [Hc Hsc] _]; subst.
    exists a, b, c. repeat split; auto.
    intros c0 t ->. exact (Hfirst c0 t _ eq_refl).
Qed.

Lemma parse_fio_inv (s l f p : str) :
  parse_fio s = Ok (l, f, p) ->
  ~ In c_space l /\ ~ In c_space f /\ ~ In c_space p
  /\ (forall c t, l = c :: t -> is_space c = false)
  /\ (f <> [] -> l <> []) /\ (p <> [] -> f <> []).
Proof.
  intros H. destruct (parse_fio_parts_ex s) as (l' & f' & p' & H' & Hprops).
  rewrite H in H'. injection H' as <- <- <-. exact Hprops.
Qed.

(** X7. What [parse_fio] returns, on every string: no part has a space in
    it, the last name does not start with white space, and the parts are
    filled from the left (a first name only with a last name, a
    patronymic only with a first name). *)
Theorem parse_fio_parts (s : str) :
  exists l f p,
    parse_fio s = Ok (l, f, p)
    /\ ~ In c_space l /\ ~ In c_space f /\ ~ In c_space p
    /\ (forall c t, l = c :: t -> is_space c = false)
    /\ (f <> [] -> l <> []) /\ (p <> [] -> f <> []).
Proof.
  destruct (parse_fio_total s) as (l & f & p & H).
  exists l, f, p. split; [exact H | exact (parse_fio_inv s l f p H)].
Qed.

(** ** Joining and parsing again *)

Lemma split_on_plain (sep : char) (p : str) :
  ~ In sep p -> split_on sep p = [p].
Proof.
  induction p as [|c p IH]; [reflexivity|].
  intros H. cbn [split_on].
  assert (E : char_eqb c sep = false).
  { destruct (char_eqb c sep) eqn:E; [|reflexivity].
    apply char_eqb_eq in E. subst. contradiction H. left. reflexivity. }
  rewrite E, IH; [reflexivity|]. intros Hin. apply H. right. exact Hin.
Qed.

Lemma split_on_app_sep (sep : char) (p y : str) :
  ~ In sep p -> split_on sep (p ++ sep :: y) = p :: split_on sep y.
Proof.
  induction p as [|c p IH]; intros H; cbn [app split_on].
  - unfold char_eqb. rewrite N.eqb_refl. reflexivity.
  - assert (E : char_eqb c sep = false).
    { destruct (char_eqb c sep) eqn:E; [|reflexivity].
      apply char_eqb_eq in E. subst. contradiction H. left. reflexivity. }
    rewrite E, IH; [reflexivity|]. intros Hin. apply H. right. exact Hin.
Qed.

(** Pieces without the separator are found again after a join. *)
Lemma split_on_join_inv (sep : char) (toks : list str) :
  toks <> [] -> Forall (fun t => ~ In sep t) toks ->
  split_on sep (join [sep] toks) = toks.
Proof.
  induction toks as [|p toks IH]; [contradiction|].
  intros _ H. inversion H as [|? ? Hp Htoks]; subst.
  destruct toks as [|q toks].
  - cbn [join]. apply split_on_plain. exact Hp.
  - change (join [sep] (p :: q :: toks))
      with (p ++ sep :: join [sep] (q :: toks)).
    rewrite (split_on_app_sep sep p _ Hp), IH; [reflexivity | discriminate |].
    exact Htoks.
Qed.

Lemma strip_id (y : str) :
  (forall c t, y = c :: t -> is_space c = false) ->
  (forall t c, y = t ++ [c] -> is_space c = false) ->
  strip y = y.
Proof.
  intros Hhd Hlast. unfold strip.
  assert (E1 : drop_while is_space y = y).
  { destruct y as [|c t]; [reflexivity|].
    cbn [drop_while]. rewrite (Hhd c t eq_refl). reflexivity. }
  rewrite E1.
  assert (E2 : drop_while is_space (rev y) = rev y).
  { destruct (rev y) as [|c t] eqn:E; [reflexivity|].
    cbn [drop_while]. rewrite (Hlast (rev t) c); [reflexivity|].
    rewrite <- (rev_involutive y), E. reflexivity. }
  rewrite E2. apply rev_involutive.
Qed.

Lemma join_head (sep : str) (c : char) (t : str) (rest : list str) :
  exists u, join sep ((c :: t) :: rest) = c :: u.
Proof. destruct rest; cbn [join app]; eauto. Qed.

Lemma join_snoc (sep : str) (init : list str) (u : str) (c : char) :
  exists v, join sep (init ++ [u ++ [c]]) = v ++ [c].
Proof.
  induction init as [|p init (v & IH)]; cbn [app].
  - exists u. reflexivity.
  - destruct (init ++ [u ++ [c]]) as [|q qs] eqn:E.
    + destruct init; discriminate E.
    + change (join sep (p :: q :: qs)) with (p ++ sep ++ join sep (q :: qs)).
      rewrite IH. exists (p ++ sep ++ v). rewrite !app_assoc. reflexivity.
Qed.

Lemma filter_truthy_id (toks : list str) :
  Forall (fun t => t <> [] /\ ~ In c_space t) toks -> filter truthy toks = toks.
Proof.
  intros H. induction H as [|t toks [Ht _] _ IH]; [reflexivity|].
  cbn [filter]. destruct t; [contradiction|]. cbn [truthy]. f_equal. exact IH.
Qed.

(** Tokens joined by single spaces are the tokens of the joined string,
    when the first does not start and the last does not end with white
    space. *)
Lemma tokens_join (toks : list str) :
  toks <> [] ->
  Forall (fun t => t <> [] /\ ~ In c_space t) toks ->
  (forall c t rest, toks = (c :: t) :: rest -> is_space c = false) ->
  (forall init u c, toks = init ++ [u ++ [c]] -> is_space c = false) ->
  tokens (join [c_space] toks) = toks.
Proof.
  intros Hne Hw Hfirst Hlast. unfold tokens.
  assert (Hstrip : strip (join [c_space] toks) = join [c_space] toks).
  { apply strip_id.
    - intros c t E. destruct toks as [|[|c0 t0] rest]; [contradiction | |].
      + inversion Hw as [|? ? [H0 _] _]. contradiction.
      + destruct (join_head [c_space] c0 t0 rest) as (u & Hu).
        pose proof (eq_trans (eq_sym Hu) E) as E'.
        injection E' as -> _. exact (Hfirst c t0 rest eq_refl).
    - intros t c E.
      destruct (exists_last Hne) as (init & lt & Etoks).
      assert (Hlt : lt <> []).
      { rewrite Etoks in Hw. apply Forall_app in Hw. destruct Hw as [_ Hw].
        inversion Hw as [|? ? [H0 _] _]. exact H0. }
      destruct (exists_last Hlt) as (u & c' & Elt).
      rewrite Elt in Etoks.
      destruct (join_snoc [c_space] init u c') as (v & Hv).
      rewrite Etoks in E. pose proof (eq_trans (eq_sym Hv) E) as E'.
      apply app_inj_tail in E'. destruct E' as [_ ->].
      exact (Hlast init u c Etoks). }
  rewrite Hstrip, split_on_join_inv.
  - apply filter_truthy_id. exact Hw.
  - exact Hne.
  - apply Forall_impl with (2 := Hw). tauto.
Qed.

Lemma split_on_snoc (sep c : char) (t : str) :
  char_eqb c sep = false ->
  exists init lp,
    split_on sep t = init ++ [lp]
    /\ split_on sep (t ++ [c]) = init ++ [lp ++ [c]].
Proof.
  intros Hc. induction t as [|y t (init & lp & E1 & E2)].
  - exists [], []. cbn [app split_on]. rewrite Hc. split; reflexivity.
  - cbn [app split_on]. rewrite E1, E2.
    destruct (char_eqb y sep).
    + exists ([] :: init), lp. split; reflexivity.
    + destruct init as [|i0 init]; cbn [app].
      * exists [], (y :: lp). split; reflexivity.
      * exists ((y :: i0) :: init), lp. split; reflexivity.
Qed.

(** The first token does not start with white space and the last token
    does not end with it. *)
Lemma tokens_first (s : str) (c : char) (t : str) (rest : list str) :
  tokens s = (c :: t) :: rest -> is_space c = false.
Proof.
  intros Ht. destruct (strip s) as [|c0 t0] eqn:E.
  - unfold tokens in Ht. rewrite E in Ht. discriminate Ht.
  - destruct (tokens_strip_head s c0 t0 E) as (p & r & Ht' & Hc).
    rewrite Ht in Ht'. injection Ht' as -> _ _. exact Hc.
Qed.

Lemma tokens_last (s : str) (init : list str) (u : str) (c : char) :
  tokens s = init ++ [u ++ [c]] -> is_space c = false.
Proof.
  intros Ht. destruct (strip_spec s) as (l & r & _ & _ & _ & _ & Hlast).
  assert (Hne : strip s <> []).
  { intros E. unfold tokens in Ht. rewrite E in Ht. destruct init; discriminate Ht. }
  destruct (exists_last Hne) as (t0 & c0 & E).
  pose proof (Hlast t0 c0 E) as Hc0.
  destruct (split_on_snoc c_space c0 t0 (not_space_neq c0 Hc0))
    as (init' & lp & _ & Hsp).
  unfold tokens in Ht. rewrite E, Hsp, filter_app in Ht.
  assert (Hl : filter truthy [lp ++ [c0]] = [lp ++ [c0]]).
  { cbn [filter]. destruct lp; reflexivity. }
  rewrite Hl in Ht. apply app_inj_tail in Ht. destruct Ht as [_ Ht].
  apply app_inj_tail in Ht. destruct Ht as [_ ->]. exact Hc0.
Qed.

Lemma tokens_of_tokens (s : str) :
  tokens s <> [] -> tokens (join [c_space] (tokens s)) = tokens s.
Proof.
  intros Hne. apply tokens_join.
  - exact Hne.
  - apply tokens_spec.
  - intros c t rest E. exact (tokens_first s c t rest E).
  - intros init u c E. exact (tokens_last s init u c E).
Qed.

(** X8. Parsing is stable on names of at most three words: the parts
    that [parse_fio] returned, joined again by single spaces as the record
    loop does, parse to the same parts. *)
Theorem parse_fio_rejoin (s l f p : str) :
  parse_fio s = Ok (l, f, p) ->
  length (tokens s) <= 3 ->
  parse_fio (join [c_space] (filter truthy [l; f; p])) = Ok (l, f, p).
Proof.
  intros H Hlen. rewrite parse_fio_tokens in H.
  pose proof (tokens_spec s) as Hw. pose proof (tokens_of_tokens s) as Hj.
  destruct (tokens s) as [|a [|b [|c [|d toks]]]];
    [| | | |cbn [length] in Hlen; lia];
    injection H as <- <- <-.
  - reflexivity.
  - inversion Hw as [|? ? [Ha _] _]; subst.
    destruct a as [|a0 a]; [contradiction|]. cbn [filter truthy].
    rewrite parse_fio_tokens, Hj; [reflexivity | discriminate].
  - inversion Hw as [|? ? [Ha _] Hw']; subst.
    inversion Hw' as [|? ? [Hb _] _]; subst.
    destruct a as [|a0 a]; [contradiction|].
    destruct b as [|b0 b]; [contradiction|]. cbn [filter truthy].
    rewrite parse_fio_tokens, Hj; [reflexivity | discriminate].
  - rewrite (filter_truthy_id _ Hw), parse_fio_tokens, Hj;
      [reflexivity | discriminate].
Qed.

Lemma parse_fio_rejoin_witness :
  parse_fio (join [c_space]
               (filter truthy [py_str "Иванов"; py_str "Иван"; []]))
  = Ok (py_str "Иванов", py_str "Иван", []).
Proof.
  apply (parse_fio_rejoin (py_str " Иванов  Иван ")).
  - vm_compute. reflexivity.
  - vm_compute. lia.
Defined.

(** ** Records whose names are already split *)

(** A word: not empty, no white space in it. *)
Definition is_word (w : str) : bool :=
  truthy w && forallb (fun c => negb (is_space c)) w.

(** Names split into single words, filled from the left. *)
Definition well_split (r : contact) : bool :=
  forallb is_word (filter truthy [lastname r; firstname r; surname r])
  && (truthy (lastname r) || negb (truthy (firstname r)))
  && (truthy (firstname r) || negb (truthy (surname r))).

Lemma is_word_spec (w : str) :
  is_word w = true ->
  w <> [] /\ ~ In c_space w /\ (forall c, In c w -> is_space c = false).
Proof.
  unfold is_word. intros H. apply andb_true_iff in H. destruct H as [Hne Hall].
  rewrite forallb_forall in Hall.
  assert (Hsp : forall c, In c w -> is_space c = false).
  { intros c Hc. specialize (Hall c Hc). destruct (is_space c); [discriminate | reflexivity]. }
  repeat split.
  - destruct w; [discriminate | discriminate].
  - intros Hin. specialize (Hsp c_space Hin). discriminate Hsp.
  - exact Hsp.
Qed.

Lemma words_tokens (toks : list str) :
  toks <> [] -> forallb is_word toks = true ->
  tokens (join [c_space] toks) = toks.
Proof.
  intros Hne Hall. rewrite forallb_forall in Hall.
  apply tokens_join.
  - exact Hne.
  - apply Forall_forall. intros t Ht.
    destruct (is_word_spec t (Hall t Ht)) as (H1 & H2 & _). auto.
  - intros c t rest ->.
    destruct (is_word_spec (c :: t) (Hall _ (or_introl eq_refl))) as (_ & _ & H).
    apply H. left. reflexivity.
  - intros init u c ->.
    assert (Hin : In (u ++ [c]) (init ++ [u ++ [c]])).
    { apply in_or_app. right. left. reflexivity. }
    destruct (is_word_spec _ (Hall _ Hin)) as (_ & _ & H).
    apply H. apply in_or_app. right. left. reflexivity.
Qed.

Lemma parse_fio_well_split (r : contact) :
  well_split r = true ->
  parse_fio (full_name r) = Ok (lastname r, firstname r, surname r).
Proof.
  unfold well_split, full_name. intros H.
  apply andb_true_iff in H. destruct H as [H H3].
  apply andb_true_iff in H. destruct H as [Hw H2].
  rewrite parse_fio_tokens.
  destruct (lastname r) as [|l0 l], (firstname r) as [|f0 f],
    (surname r) as [|s0 s]; cbn [truthy negb orb filter] in *;
    try discriminate; try reflexivity;
    rewrite words_tokens by (try discriminate; exact Hw); reflexivity.
Qed.

(** X9. A raw record whose name entries are single words filled from the
    left keeps them: joining and parsing again gives the same three
    entries, and only the phone is rewritten. *)
Theorem process_record_well_split (r : contact) :
  well_split r = true ->
  exists ph,
    process_phone_with_extension (phone r) = Ok ph
    /\ process_record r
       = Ok (mk_contact (lastname r) (firstname r) (surname r)
               (organization r) (position r) ph (email r)).
Proof.
  intros H. apply parse_fio_well_split in H.
  destruct (process_record_spec r) as (p & Hp & Hn & Hph & Ho & Hpo & He).
  rewrite H in Hn. injection Hn as Hl Hf Hs.
  exists (phone p). split; [exact Hph|].
  rewrite Hp. f_equal. destruct p. cbn in *. congruence.
Qed.

Lemma process_record_well_split_witness :
  exists ph,
    process_phone_with_extension (phone ivanov_phone) = Ok ph
    /\ process_record ivanov_phone
       = Ok (mk_contact (lastname ivanov_phone) (firstname ivanov_phone)
               (surname ivanov_phone) (organization ivanov_phone)
               (position ivanov_phone) ph (email ivanov_phone)).
Proof.
  apply process_record_well_split. vm_compute. reflexivity.
Defined.

(** ** More on [merge_contacts] *)

Lemma first_occ_from_length (seen ks : list key) :
  length (first_occ_from seen ks) <= length ks.
Proof.
  revert seen. induction ks as [|k ks IH]; intros seen; cbn; [lia|].
  destruct (mem k seen); cbn; [specialize (IH seen) | specialize (IH (seen ++ [k]))];
    lia.
Qed.

Lemma first_occ_from_full (seen ks : list key) :
  length (first_occ_from seen ks) = length ks ->
  NoDup ks /\ (forall x, In x ks -> ~ In x seen).
Proof.
  revert seen. induction ks as [|k ks IH]; intros seen; cbn [first_occ_from length].
  - intros _. split; [constructor | intros x []].
  - destruct (mem k seen) eqn:M.
    + pose proof (first_occ_from_length seen ks). lia.
    + cbn [length]. intros H. injection H as H.
      destruct (IH _ H) as [Hnd Hdis]. split.
      * constructor; [|exact Hnd]. intros Hin.
        apply (Hdis k Hin). apply in_or_app. right. left. reflexivity.
      * intros x [<- | Hx].
        -- intros Hin. apply mem_In in Hin. congruence.
        -- intros Hin. apply (Hdis x Hx). apply in_or_app. left. exact Hin.
Qed.

Lemma filter_length_full {A : Type} (p : A -> bool) (l : list A) :
  length (filter p l) = length l -> forallb p l = true.
Proof.
  induction l as [|x l IH]; cbn [filter forallb length]; [reflexivity|].
  destruct (p x); cbn [length andb].
  - intros H. apply IH. lia.
  - pose proof (filter_length_le p l). lia.
Qed.

Lemma merge_contacts_length (l : list contact) :
  length (merge_contacts l)
  = length (first_occ_from [] (map key_of (filter informative l))).
Proof.
  rewrite <- (length_map key_of (merge_contacts l)).
  rewrite merge_contacts_keys, keys_merge_loop. reflexivity.
Qed.

Lemma merge_contacts_length_le (l : list contact) :
  length (merge_contacts l) <= length l.
Proof.
  rewrite merge_contacts_length.
  pose proof (first_occ_from_length [] (map key_of (filter informative l))).
  pose proof (filter_length_le informative l).
  rewrite length_map in *. lia.
Qed.

(** X10. Merging never gives more contacts than it was given, and it
    gives as many exactly when the keys are pairwise distinct and no
    contact has all seven entries empty; the input then comes back as it
    is. *)
Theorem merge_contacts_count (l : list contact) :
  length (merge_contacts l) <= length l
  /\ (length (merge_contacts l) = length l <->
      NoDup (map key_of l) /\ forallb informative l = true)
  /\ (length (merge_contacts l) = length l -> merge_contacts l = l).
Proof.
  assert (Hiff : length (merge_contacts l) = length l ->
                 NoDup (map key_of l) /\ forallb informative l = true).
  { intros H. rewrite merge_contacts_length in H.
    pose proof (first_occ_from_length [] (map key_of (filter informative l))) as H1.
    pose proof (filter_length_le informative l) as H2.
    rewrite length_map in H1.
    assert (Hf : length (filter informative l) = length l) by lia.
    pose proof (filter_length_full informative l Hf) as Hall.
    rewrite (filter_all_true informative l Hall) in H.
    rewrite <- (length_map key_of l) in H.
    destruct (first_occ_from_full _ _ H) as [Hnd _]. auto. }
  split; [apply merge_contacts_length_le|]. split.
  - split; [exact Hiff|]. intros [Hnd Hall].
    rewrite (merge_contacts_distinct l Hnd), (filter_all_true _ _ Hall).
    reflexivity.
  - intros H. destruct (Hiff H) as [Hnd Hall].
    rewrite (merge_contacts_distinct l Hnd). apply filter_all_true, Hall.
Qed.

Lemma merge_loop_app (a b : list contact) (d : dict) :
  merge_loop (a ++ b) d = merge_loop b (merge_loop a d).
Proof. unfold merge_loop. apply fold_left_app. Qed.

(** Feeding the values of a well-formed [merged] through the loop builds
    the same [merged]. *)
Lemma merge_loop_values (d : dict) :
  dict_ok d -> merge_loop (map snd d) [] = d.
Proof.
  intros [Hnd Hk Hi].
  rewrite merge_loop_distinct.
  - cbn [app]. rewrite filter_all_true.
    + rewrite map_map. rewrite <- (map_id d) at 2. apply map_ext_in.
      intros [k a] Hin. rewrite Forall_forall in Hk.
      specialize (Hk _ Hin). cbn in *. rewrite Hk. reflexivity.
    + apply forallb_forall. intros c Hc. apply in_map_iff in Hc.
      destruct Hc as (e & <- & He). rewrite Forall_forall in Hi. exact (Hi e He).
  - cbn [keys map app]. rewrite (keyed_values d Hk). exact Hnd.
Qed.

(** X11. Merging can be done in batches: merging what was merged so far
    together with further contacts gives what merging all the contacts at
    once gives. *)
Theorem merge_contacts_batches (l1 l2 : list contact) :
  merge_contacts (merge_contacts l1 ++ l2) = merge_contacts (l1 ++ l2).
Proof.
  unfold merge_contacts. rewrite !merge_loop_app.
  rewrite (merge_loop_values _ (merge_loop_ok l1 [] dict_ok_nil)).
  reflexivity.
Qed.

Lemma merge_loop_filter (l : list contact) (d : dict) :
  merge_loop (filter informative l) d = merge_loop l d.
Proof.
  revert d. induction l as [|c l IH]; intros d; [reflexivity|].
  cbn [filter]. destruct (informative c) eqn:Hc.
  - cbn [merge_loop fold_left]. apply IH.
  - cbn [merge_loop fold_left]. rewrite merge_one_upsert, Hc. apply IH.
Qed.

(** X12. A contact whose seven entries are all empty has no effect,
    wherever it stands: with or without it the merge is the same. *)
Theorem merge_contacts_skips_empty (l1 l2 : list contact) (c : contact) :
  merge_contacts (filter informative (l1 ++ l2)) = merge_contacts (l1 ++ l2)
  /\ (informative c = false ->
      merge_contacts (l1 ++ c :: l2) = merge_contacts (l1 ++ l2)).
Proof.
  split.
  - unfold merge_contacts. rewrite merge_loop_filter. reflexivity.
  - intros Hc. unfold merge_contacts.
    rewrite <- (merge_loop_filter (l1 ++ c :: l2)), filter_app.
    cbn [filter]. rewrite Hc, <- filter_app, merge_loop_filter. reflexivity.
Qed.

Lemma merge_contacts_skips_empty_witness :
  merge_contacts ([ivanov_111] ++ default_contact :: [ivanov_222])
  = merge_contacts ([ivanov_111] ++ [ivanov_222]).
Proof.
  apply (proj2 (merge_contacts_skips_empty [ivanov_111] [ivanov_222]
                  default_contact)).
  reflexivity.
Defined.

(** Every merged value is a value of an input contact of the same key. *)
Lemma merge_contacts_from_input (l : list contact) (m : contact) (f : field) :
  In m (merge_contacts l) ->
  get f m = []
  \/ exists c, In c l /\ key_of c = key_of m /\ get f c = get f m.
Proof.
  intros Hin. rewrite (merge_contacts_field l m f Hin).
  unfold first_nonempty.
  destruct (find (fun c => truthy (get f c)) (group (key_of m) l)) as [c|] eqn:E;
    [right | left; reflexivity].
  apply find_some in E. destruct E as [Hc _].
  apply filter_In in Hc. destruct Hc as [Hc Hk]. apply key_eqb_eq in Hk.
  exists c. auto.
Qed.

(** X13. Merging invents nothing and forgets no field: every non-empty
    value of a merged contact is the value of that field in an input
    contact with the same key, and every field that some input contact
    fills is filled in the merged contact of its key. *)
Theorem merge_contacts_values (l : list contact) (f : field) :
  (forall m,
     In m (merge_contacts l) ->
     get f m = []
     \/ exists c, In c l /\ key_of c = key_of m /\ get f c = get f m)
  /\ (forall c,
        In c l -> truthy (get f c) = true ->
        exists m,
          In m (merge_contacts l) /\ key_of m = key_of c
          /\ truthy (get f m) = true).
Proof.
  split.
  - intros m Hin. apply merge_contacts_from_input. exact Hin.
  - intros c Hc Hf.
    assert (Hk : In (key_of c) (map key_of (merge_contacts l))).
    { apply merge_contacts_key_In. exists c. repeat split; [exact Hc|].
      unfold informative. apply existsb_exists.
      exists f. split; [apply in_all_fields | exact Hf]. }
    apply in_map_iff in Hk. destruct Hk as (m & Hm & Hin).
    exists m. repeat split; [exact Hin | exact Hm |].
    rewrite (merge_contacts_field l m f Hin), Hm. unfold first_nonempty.
    destruct (find (fun c => truthy (get f c)) (group (key_of c) l)) as [c'|] eqn:E.
    + apply find_some in E. tauto.
    + assert (Hg : In c (group (key_of c) l)).
      { apply filter_In. split; [exact Hc | apply key_eqb_refl]. }
      pose proof (find_none _ _ E c Hg) as Hn. cbv beta in Hn. congruence.
Qed.

Lemma group_group (k : key) (l : list contact) : group k (group k l) = group k l.
Proof.
  unfold group. induction l as [|c l IH]; [reflexivity|].
  cbn [filter]. destruct (key_eqb (key_of c) k) eqn:E; [|exact IH].
  cbn [filter]. rewrite E, IH. reflexivity.
Qed.

Lemma NoDup_constant (k : key) (ks : list key) :
  NoDup ks -> (forall x, In x ks -> x = k) -> In k ks -> ks = [k].
Proof.
  intros Hnd Hall Hin. destruct ks as [|a [|b ks]].
  - contradiction.
  - rewrite (Hall a (or_introl eq_refl)). reflexivity.
  - exfalso. inversion Hnd as [|? ? Hn _]; subst. apply Hn.
    rewrite (Hall a (or_introl eq_refl)),
      (Hall b (or_intror (or_introl eq_refl))).
    left. reflexivity.
Qed.

(** X14. Groups are merged independently: the merged contact of a key is
    what merging the contacts of that key alone gives. *)
Theorem merge_contacts_by_group (l : list contact) (m : contact) :
  In m (merge_contacts l) ->
  merge_contacts (group (key_of m) l) = [m].
Proof.
  intros Hin. set (k := key_of m). set (g := group k l).
  assert (Hk : In k (map key_of (merge_contacts l))) by (apply in_map; exact Hin).
  apply merge_contacts_key_In in Hk. destruct Hk as (c & Hc & Hck & Hci).
  assert (Hcg : In c g).
  { apply filter_In. split; [exact Hc | apply key_eqb_eq; exact Hck]. }
  assert (Hkeys : map key_of (merge_contacts g) = [k]).
  { apply NoDup_constant.
    - apply merge_contacts_NoDup.
    - intros x Hx. apply merge_contacts_key_In in Hx.
      destruct Hx as (c' & Hc' & <- & _). apply filter_In in Hc'.
      destruct Hc' as [_ E]. apply key_eqb_eq in E. exact E.
    - apply merge_contacts_key_In. exists c. auto. }
  destruct (merge_contacts g) as [|m' [|m'' ms]] eqn:Eg; try discriminate Hkeys.
  apply (f_equal (hd k)) in Hkeys. cbn [map hd] in Hkeys.
  rename Hkeys into Hm'. f_equal. apply contact_ext. intros f.
  assert (Hin' : In m' (merge_contacts g)) by (rewrite Eg; left; reflexivity).
  rewrite (merge_contacts_field g m' f Hin'), Hm'.
  unfold g. rewrite group_group.
  symmetry. apply merge_contacts_field. exact Hin.
Qed.

Lemma merge_contacts_by_group_witness :
  merge_contacts (group (key_of ivanov_111) [ivanov_111; petrov; ivanov_222])
  = [ivanov_111].
Proof.
  apply (merge_contacts_by_group [ivanov_111; petrov; ivanov_222] ivanov_111).
  vm_compute. left. reflexivity.
Defined.

(** ** The whole run *)

Lemma Forall2_in_right {A B : Type} (R : A -> B -> Prop) (xs : list A)
  (ys : list B) (y : B) :
  Forall2 R xs ys -> In y ys -> exists x, In x xs /\ R x y.
Proof.
  intros H. induction H as [|x0 y0 xs ys Hxy _ IH]; [intros []|].
  intros [<- | Hin].
  - exists x0. split; [left; reflexivity | exact Hxy].
  - destruct (IH Hin) as (x & Hx & Hr). exists x. split; [right|]; assumption.
Qed.

Lemma process_address_book_inv (raw : list contact) (ev : list event)
  (out : list contact) :
  process_address_book raw = Ok (ev, out) ->
  exists processed,
    Forall2 processed_from raw processed /\ out = merge_contacts processed.
Proof.
  destruct (process_loop_spec raw []) as (processed & Hloop & Hall).
  unfold process_address_book. rewrite Hloop. cbn [bind app].
  intros H. injection H as _ <-. exists processed. auto.
Qed.

(** X15. The run never raises.  It reports as many processed records as
    it read, writes exactly the contacts it returns, and these are at most
    as many as the records read. *)
Theorem process_address_book_counts (raw : list contact) :
  exists out,
    process_address_book raw
    = Ok ([ PrintRead (length raw);
            PrintProcessed (length raw);
            PrintMerged (length out);
            WritePhonebook out;
            PrintWritten ],
          out)
    /\ length out <= length raw.
Proof.
  destruct (process_loop_spec raw []) as (processed & Hloop & Hall).
  exists (merge_contacts processed).
  unfold process_address_book. rewrite Hloop. cbn [bind app].
  rewrite (Forall2_length Hall). split; [reflexivity|].
  apply merge_contacts_length_le.
Qed.

(** X16. In what the run returns, no two contacts have the same
    (lastname, firstname) pair, no name entry has a space in it, and the
    name entries are filled from the left. *)
Theorem process_address_book_names (raw : list contact) (ev : list event)
  (out : list contact) :
  process_address_book raw = Ok (ev, out) ->
  NoDup (map key_of out)
  /\ forall m,
       In m out ->
       ~ In c_space (lastname m) /\ ~ In c_space (firstname m)
       /\ ~ In c_space (surname m)
       /\ (firstname m <> [] -> lastname m <> [])
       /\ (surname m <> [] -> firstname m <> []).
Proof.
  intros H. destruct (process_address_book_inv raw ev out H)
    as (processed & Hall & ->).
  split; [apply merge_contacts_NoDup|].
  intros m Hin.
  assert (Hparsed : forall c,
            In c processed ->
            ~ In c_space (lastname c) /\ ~ In c_space (firstname c)
            /\ ~ In c_space (surname c)
            /\ (firstname c <> [] -> lastname c <> [])
            /\ (surname c <> [] -> firstname c <> [])).
  { intros c Hc.
    destruct (Forall2_in_right _ _ _ c Hall Hc) as (r & _ & Hn & _).
    destruct (parse_fio_inv _ _ _ _ Hn) as (H1 & H2 & H3 & _ & H5 & H6).
    auto. }
  assert (Hk : In (key_of m) (map key_of (merge_contacts processed)))
    by (apply in_map; exact Hin).
  apply merge_contacts_key_In in Hk. destruct Hk as (c & Hc & Hck & _).
  injection Hck as Hl Hf.
  destruct (Hparsed c Hc) as (H1 & H2 & _ & H4 & _).
  rewrite Hl, Hf in *.
  destruct (merge_contacts_from_input processed m Surname Hin)
    as [Hs | (c' & Hc' & Hck' & Hs)]; cbn [get] in Hs.
  - rewrite Hs. repeat split; auto; intros Hn0; exfalso; apply Hn0; reflexivity.
  - injection Hck' as _ Hf'.
    destruct (Hparsed c' Hc') as (_ & _ & H3' & _ & H5').
    rewrite Hs, Hf' in *. auto.
Qed.

Lemma process_address_book_names_witness :
  NoDup (map key_of [ivanov_merged])
  /\ forall m,
       In m [ivanov_merged] ->
       ~ In c_space (lastname m) /\ ~ In c_space (firstname m)
       /\ ~ In c_space (surname m)
       /\ (firstname m <> [] -> lastname m <> [])
       /\ (surname m <> [] -> firstname m <> []).
Proof.
  apply (process_address_book_names [ivanov_phone; ivanov_job]
           [ PrintRead 2; PrintProcessed 2; PrintMerged 1;
             WritePhonebook [ivanov_merged]; PrintWritten ]).
  vm_compute. reflexivity.
Defined.

(** X17. Nothing in the output comes from nowhere: a non-empty phone of a
    returned contact is [process_phone_with_extension] of the phone of some
    raw record, and a non-empty organization, position or email is that of
    some raw record. *)
Theorem process_address_book_sources (raw : list contact) (ev : list event)
  (out : list contact) :
  process_address_book raw = Ok (ev, out) ->
  forall m,
    In m out ->
    (phone m = []
     \/ exists r, In r raw /\ process_phone_with_extension (phone r) = Ok (phone m))
    /\ (organization m = []
        \/ exists r, In r raw /\ organization r = organization m)
    /\ (position m = [] \/ exists r, In r raw /\ position r = position m)
    /\ (email m = [] \/ exists r, In r raw /\ email r = email m).
Proof.
  intros H m Hin. destruct (process_address_book_inv raw ev out H)
    as (processed & Hall & ->).
  assert (Hsrc : forall f,
            get f m = []
            \/ exists r c, In r raw /\ processed_from r c /\ get f c = get f m).
  { intros f. destruct (merge_contacts_from_input processed m f Hin)
      as [He | (c & Hc & _ & Hf)]; [left; exact He | right].
    destruct (Forall2_in_right _ _ _ c Hall Hc) as (r & Hr & Hrc).
    exists r, c. auto. }
  repeat split.
  - destruct (Hsrc Phone) as [He | (r & c & Hr & (_ & Hp & _) & Hf)];
      [left; exact He | right].
    cbn [get] in Hf. exists r. rewrite <- Hf. auto.
  - destruct (Hsrc Organization)
      as [He | (r & c & Hr & (_ & _ & Ho & _) & Hf)]; [left; exact He | right].
    cbn [get] in Hf. exists r. rewrite <- Hf. auto.
  - destruct (Hsrc Position)
      as [He | (r & c & Hr & (_ & _ & _ & Hp & _) & Hf)]; [left; exact He | right].
    cbn [get] in Hf. exists r. rewrite <- Hf. auto.
  - destruct (Hsrc Email)
      as [He | (r & c & Hr & (_ & _ & _ & _ & Hm) & Hf)]; [left; exact He | right].
    cbn [get] in Hf. exists r. rewrite <- Hf. auto.
Qed.

Lemma process_address_book_sources_witness :
  (phone ivanov_merged = []
   \/ exists r, In r [ivanov_phone; ivanov_job]
                /\ process_phone_with_extension (phone r)
                   = Ok (phone ivanov_merged))
  /\ (organization ivanov_merged = []
      \/ exists r, In r [ivanov_phone; ivanov_job]
                   /\ organization r = organization ivanov_merged)
  /\ (position ivanov_merged = []
      \/ exists r, In r [ivanov_phone; ivanov_job]
                   /\ position r = position ivanov_merged)
  /\ (email ivanov_merged = []
      \/ exists r, In r [ivanov_phone; ivanov_job]
                   /\ email r = email ivanov_merged).
Proof.
  apply (process_address_book_sources [ivanov_phone; ivanov_job]
           [ PrintRead 2; PrintProcessed 2; PrintMerged 1;
             WritePhonebook [ivanov_merged]; PrintWritten ]
           [ivanov_merged]).
  - vm_compute. reflexivity.
  - left. reflexivity.
Defined.

(** The phone as the record loop rewrites it. *)
Definition normalized_phone (r : contact) : str :=
  match process_phone_with_extension (phone r) with
  | Ok p => p
  | Raise _ => []
  end.

Definition with_normalized_phone (r : contact) : contact :=
  set Phone (normalized_phone r) r.

Lemma process_loop_well_split (raw acc : list contact) :
  forallb well_split raw = true ->
  process_loop raw acc = Ok (acc ++ map with_normalized_phone raw).
Proof.
  revert acc. induction raw as [|r raw IH]; intros acc H.
  - cbn. rewrite app_nil_r. reflexivity.
  - cbn [forallb] in H. apply andb_true_iff in H. destruct H as [Hr Hraw].
    assert (Hrec : process_record r = Ok (with_normalized_phone r)).
    { destruct (process_record_spec r) as (p & Hp & Hn & Hph & Ho & Hpo & He).
      rewrite Hp. f_equal. unfold with_normalized_phone, normalized_phone.
      rewrite Hph. rewrite (parse_fio_well_split r Hr) in Hn.
      injection Hn as Hl Hf Hs. destruct p, r. cbn in *. congruence. }
    cbn [process_loop map]. rewrite Hrec. cbn [bind].
    rewrite (IH _ Hraw), <- app_assoc. reflexivity.
Qed.

(** X18. For a book whose names are already split into single words, the
    run is: rewrite every phone, then merge. *)
Theorem process_address_book_well_split (raw : list contact) :
  forallb well_split raw = true ->
  exists ev,
    process_address_book raw
    = Ok (ev, merge_contacts (map with_normalized_phone raw)).
Proof.
  intros H. unfold process_address_book.
  rewrite (process_loop_well_split raw [] H). cbn [bind app].
  eexists. reflexivity.
Qed.

Lemma process_address_book_well_split_witness :
  exists ev,
    process_address_book [ivanov_phone; ivanov_job]
    = Ok (ev, merge_contacts
                (map with_normalized_phone [ivanov_phone; ivanov_job])).
Proof.
  apply process_address_book_well_split. vm_compute. reflexivity.
Defined.

(** ** Which phones are normalised *)

Lemma formatted_canonical (a b c e f g h i j k : char) :
  forallb is_digit [a; b; c; e; f; g; h; i; j; k] = true ->
  is_canonical (formatted a b c e f g h i j k) = true.
Proof.
  intros H. cbn [forallb] in H.
  repeat (apply andb_true_iff in H; destruct H as [? H]).
  unfold is_canonical, formatted. cbn.
  repeat match goal with Hd : is_digit _ = true |- _ => rewrite Hd; clear Hd end.
  reflexivity.
Qed.

(** X19. A phone is normalised exactly when it has eleven decimal digits
    of which the first is 7 or 8; whatever else is in the string does not
    matter. *)
Theorem process_phone_normalises (s : str) :
  is_canonical (process_phone s) = true <->
  length (strip_non_digits s) = 11
  /\ (startswith c_7 (strip_non_digits s)
      || startswith c_8 (strip_non_digits s)) = true.
Proof.
  split.
  - intros H. destruct (process_phone_inv s)
      as [Hs | (a & b & c & e & f & g & h & i & j & k & Hc & Hd & Hs)].
    + rewrite Hs in H.
      destruct (canonical_formatted s H)
        as (a & b & c & e & f & g & h & i & j & k & -> & Hd).
      unfold strip_non_digits.
      rewrite (filter_formatted _ _ _ _ _ _ _ _ _ _ Hd). split; reflexivity.
    + unfold cleaned_digits in Hc. fold (strip_non_digits s) in Hc.
      destruct (strip_non_digits s) as [|x d]; [discriminate Hc|].
      cbn [startswith tl] in *.
      destruct (char_eqb x c_8) eqn:E8.
      * injection Hc as ->. rewrite orb_true_r. split; reflexivity.
      * injection Hc as -> ->. split; reflexivity.
  - intros [Hlen Hst].
    assert (Hc : exists a b c e f g h i j k,
               cleaned_digits s = [c_7; a; b; c; e; f; g; h; i; j; k]).
    { unfold cleaned_digits. fold (strip_non_digits s).
      destruct (strip_non_digits s)
        as [|x [|a [|b [|c [|e [|f [|g [|h [|i [|j [|k [|z d]]]]]]]]]]]];
        try discriminate Hlen.
      exists a, b, c, e, f, g, h, i, j, k. cbn [startswith tl] in *.
      destruct (char_eqb x c_8) eqn:E8; [reflexivity|].
      rewrite orb_false_r in Hst. apply char_eqb_eq in Hst. subst x.
      reflexivity. }
    destruct Hc as (a & b & c & e & f & g & h & i & j & k & Hc).
    rewrite process_phone_cases, Hc.
    change (char_eqb c_7 c_7) with true. cbv iota.
    apply formatted_canonical. exact (cleaned_digits_tail s _ _ Hc).
Qed.

(** ** Merging and the order of the input *)

Lemma find_app_some {A : Type} (p : A -> bool) (l1 l2 : list A) (x : A) :
  find p l1 = Some x -> find p (l1 ++ l2) = Some x.
Proof.
  induction l1 as [|y l1 IH]; cbn [find app]; [discriminate|].
  destruct (p y); [auto | exact IH].
Qed.

Lemma first_nonempty_truthy (f : field) (g : list contact) :
  truthy (first_nonempty f g) = true ->
  exists c, find (fun c => truthy (get f c)) g = Some c.
Proof.
  unfold first_nonempty.
  destruct (find (fun c => truthy (get f c)) g) as [c|]; [eauto | discriminate].
Qed.

(** X20. Later contacts never overwrite: after more contacts are
    appended, the merged contact of a key still has every non-empty value
    it had before. *)
Theorem merge_contacts_extend (l1 l2 : list contact) (m : contact) :
  In m (merge_contacts l1) ->
  exists m',
    In m' (merge_contacts (l1 ++ l2)) /\ key_of m' = key_of m
    /\ forall f, truthy (get f m) = true -> get f m' = get f m.
Proof.
  intros Hin.
  assert (Hk : In (key_of m) (map key_of (merge_contacts (l1 ++ l2)))).
  { apply merge_contacts_key_In.
    assert (Hk1 : In (key_of m) (map key_of (merge_contacts l1)))
      by (apply in_map; exact Hin).
    apply merge_contacts_key_In in Hk1. destruct Hk1 as (c & Hc & Hck & Hci).
    exists c. repeat split; [apply in_or_app; left; exact Hc | exact Hck | exact Hci]. }
  apply in_map_iff in Hk. destruct Hk as (m' & Hm' & Hin').
  exists m'. repeat split; [exact Hin' | exact Hm' |].
  intros f Hf.
  rewrite (merge_contacts_field _ m' f Hin'), Hm'.
  rewrite (merge_contacts_field _ m f Hin) in Hf |- *.
  destruct (first_nonempty_truthy f _ Hf) as (c & Hc).
  unfold group. rewrite filter_app. unfold first_nonempty.
  fold (group (key_of m) l1).
  rewrite (find_app_some _ _ _ c Hc), Hc. reflexivity.
Qed.

Lemma merge_contacts_extend_witness :
  exists m',
    In m' (merge_contacts ([ivanov_phone] ++ [ivanov_job]))
    /\ key_of m' = key_of ivanov_phone
    /\ forall f, truthy (get f ivanov_phone) = true ->
                 get f m' = get f ivanov_phone.
Proof.
  apply (merge_contacts_extend [ivanov_phone] [ivanov_job] ivanov_phone).
  vm_compute. left. reflexivity.
Defined.

(** Contacts of one key never disagree on a field that both fill. *)
Definition compatible (l : list contact) : Prop :=
  forall c c' f,
    In c l -> In c' l -> key_of c = key_of c' ->
    truthy (get f c) = true -> truthy (get f c') = true ->
    get f c = get f c'.

Lemma first_nonempty_perm (f : field) (g g' : list contact) :
  (forall c, In c g <-> In c g') ->
  (forall c c', In c g -> In c' g ->
                truthy (get f c) = true -> truthy (get f c') = true ->
                get f c = get f c') ->
  first_nonempty f g = first_nonempty f g'.
Proof.
  intros Hsame Hcompat. unfold first_nonempty.
  destruct (find (fun c => truthy (get f c)) g) as [c|] eqn:E;
    destruct (find (fun c => truthy (get f c)) g') as [c'|] eqn:E'.
  - apply find_some in E. apply find_some in E'.
    destruct E as [Hc Ht], E' as [Hc' Ht'].
    apply Hcompat; [exact Hc | apply Hsame; exact Hc' | exact Ht | exact Ht'].
  - apply find_some in E. destruct E as [Hc Ht].
    pose proof (find_none _ _ E' c (proj1 (Hsame c) Hc)) as Hn.
    cbv beta in Hn. congruence.
  - apply find_some in E'. destruct E' as [Hc' Ht'].
    pose proof (find_none _ _ E c' (proj2 (Hsame c') Hc')) as Hn.
    cbv beta in Hn. congruence.
  - reflexivity.
Qed.

Lemma NoDup_map_inv_key (l : list contact) :
  NoDup (map key_of l) -> NoDup l.
Proof.
  induction l as [|c l IH]; cbn [map]; intros H; [constructor|].
  inversion H as [|? ? Hn Hnd]; subst. constructor; [|apply IH, Hnd].
  intros Hin. apply Hn. apply in_map. exact Hin.
Qed.

Lemma merge_contacts_order_In (l l' : list contact) (m : contact) :
  (forall c, In c l <-> In c l') -> compatible l ->
  In m (merge_contacts l) -> In m (merge_contacts l').
Proof.
  intros Hsame Hcompat Hin.
  assert (Hk : In (key_of m) (map key_of (merge_contacts l'))).
  { apply merge_contacts_key_In.
    assert (Hk1 : In (key_of m) (map key_of (merge_contacts l)))
      by (apply in_map; exact Hin).
    apply merge_contacts_key_In in Hk1. destruct Hk1 as (c & Hc & Hck & Hci).
    exists c. repeat split; [apply Hsame; exact Hc | exact Hck | exact Hci]. }
  apply in_map_iff in Hk. destruct Hk as (m' & Hm' & Hin').
  assert (E : m' = m).
  { apply contact_ext. intros f.
    rewrite (merge_contacts_field _ m' f Hin'), Hm'.
    rewrite (merge_contacts_field _ m f Hin).
    symmetry. apply first_nonempty_perm.
    - intros c. unfold group. rewrite !filter_In, Hsame. tauto.
    - intros c c' Hc Hc' Ht Ht'.
      apply filter_In in Hc. apply filter_In in Hc'.
      destruct Hc as [Hc Ek], Hc' as [Hc' Ek'].
      apply key_eqb_eq in Ek. apply key_eqb_eq in Ek'.
      apply Hcompat; [exact Hc | exact Hc' | congruence | exact Ht | exact Ht']. }
  rewrite <- E. exact Hin'.
Qed.

(** X21. The order of the input matters only where duplicates disagree:
    when no two contacts of one key fill the same field differently, any
    reordering of the input gives the same merged contacts (in another
    order at most). *)
Theorem merge_contacts_order (l l' : list contact) :
  Permutation l l' -> compatible l ->
  Permutation (merge_contacts l) (merge_contacts l').
Proof.
  intros Hp Hcompat.
  assert (Hsame : forall c, In c l <-> In c l').
  { intros c. split; apply Permutation_in; [exact Hp | symmetry; exact Hp]. }
  assert (Hcompat' : compatible l').
  { intros c c' f Hc Hc'. apply Hcompat; apply Hsame; assumption. }
  apply NoDup_Permutation.
  - apply NoDup_map_inv_key, merge_contacts_NoDup.
  - apply NoDup_map_inv_key, merge_contacts_NoDup.
  - intros m. split.
    + apply merge_contacts_order_In; assumption.
    + apply merge_contacts_order_In; [|exact Hcompat'].
      intros c. symmetry. apply Hsame.
Qed.

Lemma merge_contacts_order_witness :
  Permutation (merge_contacts [ivanov_phone; ivanov_job])
    (merge_contacts [ivanov_job; ivanov_phone]).
Proof.
  apply merge_contacts_order.
  - apply perm_swap.
  - intros c c' f [<- | [<- | []]] [<- | [<- | []]] _ H1 H2;
      destruct f; try reflexivity; discriminate.
Defined.

(** ** The marker test and the guard on [parts] *)

(** X22. Whenever ['доб' in phone.lower()] holds, [re.split] returns at
    least two parts, the first being the text before the first match: the
    [else ''] of the guard [len(parts) > 1] is never taken. *)
Theorem marker_test_splits (s : str) :
  contains lit_marker (lower s) = true ->
  2 <= length (re_split s)
  /\ exists main after,
       re_search s = Some (main, after)
       /\ getitem (re_split s) 0 = Ok main
       /\ getitem (re_split s) 1 = Ok (upto_marker after).
Proof.
  intros H. destruct (marker_found s H) as (main & after & Hsearch).
  rewrite re_split_step, Hsearch.
  destruct (re_split_head after) as (rest & ->).
  split; [cbn [length]; lia|].
  exists main, after. repeat split.
Qed.

Lemma marker_test_splits_witness :
  2 <= length (re_split (py_str "8 916 123-45-67 ДОБ 12"))
  /\ exists main after,
       re_search (py_str "8 916 123-45-67 ДОБ 12") = Some (main, after)
       /\ getitem (re_split (py_str "8 916 123-45-67 ДОБ 12")) 0 = Ok main
       /\ getitem (re_split (py_str "8 916 123-45-67 ДОБ 12")) 1
          = Ok (upto_marker after).
Proof.
  apply marker_test_splits. vm_compute. reflexivity.
Defined.

(** ** Rows with missing values *)

(** [read_phonebook] takes its rows from [csv.DictReader]: a row is a dict
    from column names to values, and the value of a column that a short
    line does not reach is [None].  The definitions below follow the code
    with such values; the contacts above are what they give when every
    [None] is read as the empty string. *)

(** A value of a row: a string, or Python's [None]. *)
Definition value : Type := option str.

Definition row : Type := list (str * value).

(** [row.get(key, default)]. *)
Fixpoint row_get (r : row) (key : str) (default : value) : value :=
  match r with
  | [] => default
  | (k, v) :: r' => if str_eqb k key then v else row_get r' key default
  end.

Definition k_lastname : str := Eval vm_compute in py_str "lastname".
Definition k_firstname : str := Eval vm_compute in py_str "firstname".
Definition k_surname : str := Eval vm_compute in py_str "surname".
Definition k_organization : str := Eval vm_compute in py_str "organization".
Definition k_position : str := Eval vm_compute in py_str "position".
Definition k_phone : str := Eval vm_compute in py_str "phone".
Definition k_email : str := Eval vm_compute in py_str "email".

(** The dict that [read_phonebook] appends for a row. *)
Record raw_contact : Type := mk_raw {
  raw_lastname : value;
  raw_firstname : value;
  raw_surname : value;
  raw_organization : value;
  raw_position : value;
  raw_phone : value;
  raw_email : value
}.

Definition read_row (r : row) : raw_contact :=
  mk_raw (row_get r k_lastname (Some [])) (row_get r k_firstname (Some []))
    (row_get r k_surname (Some [])) (row_get r k_organization (Some []))
    (row_get r k_position (Some [])) (row_get r k_phone (Some []))
    (row_get r k_email (Some [])).

(** The loop of [read_phonebook] over the rows of the reader. *)
Fixpoint read_loop (rows : list row) (contacts : list raw_contact)
  : list raw_contact :=
  match rows with
  | [] => contacts
  | r :: rest => read_loop rest (contacts ++ [read_row r])
  end.

Definition read_phonebook (rows : list row) : list raw_contact :=
  read_loop rows [].

(** Python truthiness of a value: [None] and the empty string are false. *)
Definition truthy_value (v : value) : bool :=
  match v with
  | Some s => truthy s
  | None => false
  end.

(** The string a true value is. *)
Definition value_str (v : value) : str :=
  match v with
  | Some s => s
  | None => []
  end.

(** [process_phone_with_extension] on a value: the first test,
    [if not phone], answers for [None] as for the empty string. *)
Definition with_extension_value (v : value) : result str :=
  if negb (truthy_value v) then Ok []
  else process_phone_with_extension (value_str v).

(** The processed contact: the names and the phone are strings, the three
    entries passed through are what the row had. *)
Record processed_contact : Type := mk_processed {
  p_lastname : str;
  p_firstname : str;
  p_surname : str;
  p_organization : value;
  p_position : value;
  p_phone : str;
  p_email : value
}.

(** The body of the loop over [raw_contacts], on values. *)
Definition process_raw_record (c : raw_contact) : result processed_contact :=
  let fio_parts := [] in
  let fio_parts :=
    if truthy_value (raw_lastname c)
    then fio_parts ++ [value_str (raw_lastname c)] else fio_parts in
  let fio_parts :=
    if truthy_value (raw_firstname c)
    then fio_parts ++ [value_str (raw_firstname c)] else fio_parts in
  let fio_parts :=
    if truthy_value (raw_surname c)
    then fio_parts ++ [value_str (raw_surname c)] else fio_parts in
  let fio_string := join [c_space] fio_parts in
  fio <- parse_fio fio_string ;;
  let '(l, f, s) := fio in
  p <- with_extension_value (raw_phone c) ;;
  Ok (mk_processed l f s (raw_organization c) (raw_position c) p
        (raw_email c)).

Fixpoint process_raw_loop (raw_contacts : list raw_contact)
  (processed_contacts : list processed_contact)
  : result (list processed_contact) :=
  match raw_contacts with
  | [] => Ok processed_contacts
  | c :: rest =>
      processed_contact <- process_raw_record c ;;
      process_raw_loop rest (processed_contacts ++ [processed_contact])
  end.

(** [contact[field]] of a processed contact. *)
Definition get_value (f : field) (c : processed_contact) : value :=
  match f with
  | Lastname => Some (p_lastname c)
  | Firstname => Some (p_firstname c)
  | Surname => Some (p_surname c)
  | Organization => p_organization c
  | Position => p_position c
  | Phone => Some (p_phone c)
  | Email => p_email c
  end.

(** [merge_contacts] on processed contacts: the same statements, the test
    [contact[field] and ...] being false for [None] too. *)
Definition merge_value_field (k : key) (c : processed_contact) (merged : dict)
  (f : field) : dict :=
  if truthy_value (get_value f c) then
    let '(acc, merged) := dd_getitem k merged in
    if negb (truthy (get f acc)) then
      let '(_, merged) := dd_getitem k merged in
      set_item_field k f (value_str (get_value f c)) merged
    else merged
  else merged.

Definition merge_value_one (merged : dict) (c : processed_contact) : dict :=
  let k := (p_lastname c, p_firstname c) in
  let merged :=
    fold_left (merge_value_field k c)
      [Lastname; Firstname; Surname; Organization; Position] merged in
  let merged := merge_value_field k c merged Phone in
  merge_value_field k c merged Email.

Definition merge_value_contacts (contacts_list : list processed_contact)
  : list contact :=
  map snd (fold_left merge_value_one contacts_list []).

(** [process_address_book] from the rows of the reader on. *)
Definition process_rows (rows : list row)
  : result (list event * list contact) :=
  let raw_contacts := read_phonebook rows in
  processed_contacts <- process_raw_loop raw_contacts [] ;;
  let final_contacts := merge_value_contacts processed_contacts in
  Ok ([ PrintRead (length raw_contacts);
        PrintProcessed (length processed_contacts);
        PrintMerged (length final_contacts);
        WritePhonebook final_contacts;
        PrintWritten ],
      final_contacts).

(** A row read with every missing column and every [None] as the empty
    string. *)
Definition contact_of_row (r : row) : contact :=
  mk_contact (value_str (row_get r k_lastname (Some [])))
    (value_str (row_get r k_firstname (Some [])))
    (value_str (row_get r k_surname (Some [])))
    (value_str (row_get r k_organization (Some [])))
    (value_str (row_get r k_position (Some [])))
    (value_str (row_get r k_phone (Some [])))
    (value_str (row_get r k_email (Some []))).

Definition erase_raw (c : raw_contact) : contact :=
  mk_contact (value_str (raw_lastname c)) (value_str (raw_firstname c))
    (value_str (raw_surname c)) (value_str (raw_organization c))
    (value_str (raw_position c)) (value_str (raw_phone c))
    (value_str (raw_email c)).

Definition erase_processed (c : processed_contact) : contact :=
  mk_contact (p_lastname c) (p_firstname c) (p_surname c)
    (value_str (p_organization c)) (value_str (p_position c)) (p_phone c)
    (value_str (p_email c)).

Lemma truthy_value_str (v : value) : truthy (value_str v) = truthy_value v.
Proof. destruct v; reflexivity. Qed.

Lemma read_loop_map (rows : list row) (acc : list raw_contact) :
  read_loop rows acc = acc ++ map read_row rows.
Proof.
  revert acc. induction rows as [|r rows IH]; intros acc; cbn.
  - rewrite app_nil_r. reflexivity.
  - rewrite IH, <- app_assoc. reflexivity.
Qed.

Lemma with_extension_value_str (v : value) :
  with_extension_value v = process_phone_with_extension (value_str v).
Proof.
  unfold with_extension_value. rewrite <- truthy_value_str.
  destruct (value_str v); reflexivity.
Qed.

Lemma process_raw_record_erase (c : raw_contact) :
  exists p,
    process_raw_record c = Ok p
    /\ process_record (erase_raw c) = Ok (erase_processed p).
Proof.
  unfold process_raw_record, process_record, erase_raw.
  cbn [lastname firstname surname organization position phone email].
  rewrite !truthy_value_str, with_extension_value_str. cbv zeta.
  match goal with
  | |- context [parse_fio ?x] =>
      destruct (parse_fio_total x) as (l & f & s & ->)
  end.
  destruct (with_extension_total (value_str (raw_phone c))) as (p & ->).
  cbn [bind]. eexists. split; reflexivity.
Qed.

Lemma process_raw_loop_erase (raws : list raw_contact)
  (acc : list processed_contact) :
  exists ps,
    process_raw_loop raws acc = Ok ps
    /\ process_loop (map erase_raw raws) (map erase_processed acc)
       = Ok (map erase_processed ps).
Proof.
  revert acc. induction raws as [|c raws IH]; intros acc.
  - exists acc. split; reflexivity.
  - destruct (process_raw_record_erase c) as (p & Hp & Hp').
    destruct (IH (acc ++ [p])) as (ps & Hps & Hps').
    exists ps. cbn [process_raw_loop process_loop map].
    rewrite Hp, Hp'. cbn [bind]. split; [exact Hps|].
    rewrite map_app in Hps'. exact Hps'.
Qed.

Lemma merge_value_field_erase (k : key) (c : processed_contact) (d : dict)
  (f : field) :
  merge_value_field k c d f = merge_field k (erase_processed c) d f.
Proof.
  unfold merge_value_field, merge_field.
  assert (E : value_str (get_value f c) = get f (erase_processed c))
    by (destruct f; reflexivity).
  rewrite <- E, truthy_value_str. reflexivity.
Qed.

Lemma merge_value_one_erase (d : dict) (c : processed_contact) :
  merge_value_one d c = merge_one d (erase_processed c).
Proof.
  unfold merge_value_one, merge_one. cbn [fold_left].
  rewrite !merge_value_field_erase. reflexivity.
Qed.

Lemma merge_value_contacts_erase (l : list processed_contact) :
  merge_value_contacts l = merge_contacts (map erase_processed l).
Proof.
  unfold merge_value_contacts, merge_contacts, merge_loop. f_equal.
  generalize (@nil (key * contact)). induction l as [|c l IH]; intros d;
    [reflexivity|].
  cbn [fold_left map]. rewrite merge_value_one_erase. apply IH.
Qed.

(** X23. Missing values are empty strings.  A column the file does not
    have, and a column a short line does not reach (which the reader gives
    as [None]), are processed exactly as if the row held the empty string
    there: the run on the rows is the run on the contacts read that way.
    Columns other than the seven are never looked at. *)
Theorem process_rows_as_strings (rows : list row) :
  process_rows rows = process_address_book (map contact_of_row rows).
Proof.
  unfold process_rows, process_address_book, read_phonebook.
  rewrite read_loop_map. cbn [app].
  destruct (process_raw_loop_erase (map read_row rows) [])
    as (ps & Hps & Hps').
  rewrite map_map in Hps'. cbn [map] in Hps'.
  change (fun x => erase_raw (read_row x)) with contact_of_row in Hps'.
  rewrite Hps, Hps'. cbn [bind].
  rewrite merge_value_contacts_erase, !length_map. reflexivity.
Qed.
